(** * go-metrics-svc: the in-memory metric store of cmd/server/main.go

    A shallow embedding of [MemStorageImpl] with its two methods [Add] and
    [Get].  Slices are modelled as Go has them: a header (pointer, length,
    capacity) over a backing array that lives in a heap, so that in-place
    writes, [append] and the [make]/[copy] of [Get] keep their aliasing
    behaviour.  A panic (a failed type assertion, an index out of range) is
    an explicit outcome.  Counter values are [int64] with wrap-around.

    The file has three layers.  [Add] and [Get] on the heap follow the
    source line by line.  [upsert] is their effect on the sequence of stored
    entries, and [Add_spec] ties the two together.  The callers of the HTTP
    handlers are program counters into the same method bodies, scheduled in
    any order under the [sync.RWMutex] every call takes. *)

From Stdlib Require Import ZArith Floats.PrimFloat.
From stdpp Require Import gmap strings list.

Local Open Scope Z_scope.

(** ** Metric kinds: [type MetricType int] with its two [iota] constants *)

Definition MetricType := Z.
Definition GaugeType : MetricType := 0.
Definition CounterType : MetricType := 1.

(** ** Dynamic values: what the [interface{}] field of a metric may hold.
    The handler stores an [int64] or a [float64]; [Nil] is the zero value of
    the interface and [Str] stands for a value of any other dynamic type. *)

Inductive iface : Type :=
  | Nil
  | Int64 (z : Z)
  | Float64 (f : float)
  | Str (s : string).

(** The type assertion [v.(int64)]: [None] is the run-time panic. *)
Definition assert_int64 (v : iface) : option Z :=
  match v with
  | Int64 z => Some z
  | _ => None
  end.

(** ** 64-bit signed arithmetic: Go's [+] on [int64] wraps around *)

Definition min_int64 : Z := - 2 ^ 63.
Definition max_int64 : Z := 2 ^ 63 - 1.
Definition in_int64 (z : Z) : Prop := min_int64 <= z <= max_int64.
Definition wrap64 (z : Z) : Z := (z + 2 ^ 63) mod 2 ^ 64 - 2 ^ 63.
Definition add64 (a b : Z) : Z := wrap64 (a + b).

(** ** [type Metric struct { Name string; Type MetricType; Value interface{} }] *)

Record Metric : Type := mkMetric {
  Name : string;
  Type_ : MetricType;
  Value : iface
}.

Definition zeroMetric : Metric := mkMetric "" 0 Nil.

(** [s.metrics[i].Name == m.Name && s.metrics[i].Type == m.Type] *)
Definition same_key (e m : Metric) : bool :=
  String.eqb (Name e) (Name m) && Z.eqb (Type_ e) (Type_ m).

Definition key (m : Metric) : string * MetricType := (Name m, Type_ m).

(** ** Slices and the heap of backing arrays *)

Definition loc := positive.

Record slice : Type := Slice {
  ptr : option loc;
  len : nat;
  cap : nat
}.

(** The zero value of a slice, as in [&MemStorageImpl{}]. *)
Definition nil_slice : slice := Slice None 0 0.

(** [type MemStorageImpl struct { sync.RWMutex; metrics []Metric }]; the
    lock is modelled further down, with the callers that take it. *)
Record MemStorageImpl : Type := mkStore {
  metrics : slice
}.

(** The state of the program: the backing arrays and the one store [s]. *)
Record world : Type := World {
  heap : gmap loc (list Metric);
  store : MemStorageImpl
}.

(** The backing array of a slice; a nil slice has none. *)
Definition backing (h : gmap loc (list Metric)) (sl : slice) : list Metric :=
  match ptr sl with
  | Some l => default [] (h !! l)
  | None => []
  end.

(** The elements [sl[0] .. sl[len-1]] as a sequence. *)
Definition elems (h : gmap loc (list Metric)) (sl : slice) : list Metric :=
  take (len sl) (backing h sl).

(** [sl[i]], bounds-checked against the length: [None] is the panic. *)
Definition index (h : gmap loc (list Metric)) (sl : slice) (i : nat) : option Metric :=
  if decide (i < len sl)%nat then backing h sl !! i else None.

(** [sl[i].Value = v]: a write into the backing array. *)
Definition set_Value (h : gmap loc (list Metric)) (sl : slice) (i : nat) (v : iface)
  : gmap loc (list Metric) :=
  match ptr sl with
  | Some l => alter (fun a => alter (fun e => mkMetric (Name e) (Type_ e) v) i a) l h
  | None => h
  end.

Section Runtime.

(** The spare capacity the Go runtime adds when [append] has to grow a slice
    of the given length; the language fixes only that the new array has room
    for the appended element. *)
Variable spare : nat -> nat.

(** [append(sl, m)]: in place when the capacity allows, otherwise into a
    newly allocated array that receives a copy of the elements. *)
Definition append (h : gmap loc (list Metric)) (sl : slice) (m : Metric)
  : gmap loc (list Metric) * slice :=
  match ptr sl with
  | Some l =>
      if decide (len sl < cap sl)%nat then
        (alter (fun a => <[len sl := m]> a) l h, Slice (Some l) (S (len sl)) (cap sl))
      else
        let l' := fresh (dom h) in
        (<[l' := elems h sl ++ m :: replicate (spare (len sl)) zeroMetric]> h,
         Slice (Some l') (S (len sl)) (S (len sl) + spare (len sl)))
  | None =>
      let l' := fresh (dom h) in
      (<[l' := m :: replicate (spare 0) zeroMetric]> h,
       Slice (Some l') 1 (S (spare 0)))
  end.

(** [make([]Metric, n)] *)
Definition make (h : gmap loc (list Metric)) (n : nat) : gmap loc (list Metric) * slice :=
  let l := fresh (dom h) in
  (<[l := replicate n zeroMetric]> h, Slice (Some l) n n).

(** [copy(dst, src)]: the first [min(len(dst), len(src))] elements. *)
Definition copy (h : gmap loc (list Metric)) (dst src : slice) : gmap loc (list Metric) :=
  let n := Nat.min (len dst) (len src) in
  match ptr dst with
  | Some l => alter (fun a => take n (elems h src) ++ drop n a) l h
  | None => h
  end.

(** ** The store *)

(** [NewMemStorage]: [&MemStorageImpl{}], no backing array yet. *)
Definition NewMemStorage : world := World ∅ (mkStore nil_slice).

(** How a call of [Add] ends; either way the deferred [Unlock] has run and
    the world is the one the call leaves behind. *)
Inductive outcome : Type :=
  | Return (w : world)
  | Panicked (w : world).

Definition after (o : outcome) : world :=
  match o with
  | Return w => w
  | Panicked w => w
  end.

Definition panicked (o : outcome) : bool :=
  match o with
  | Return _ => false
  | Panicked _ => true
  end.

Definition put_heap (w : world) (h : gmap loc (list Metric)) : world :=
  World h (store w).

(** The body of [for i := range s.metrics] at index [i], with [n]
    iterations left; [None] means the loop ran to its end. *)
Fixpoint Add_loop (w : world) (m : Metric) (i n : nat) : option outcome :=
  match n with
  | O => None
  | S n' =>
      let sl := metrics (store w) in
      match index (heap w) sl i with
      | None => Some (Panicked w)
      | Some e =>
          if same_key e m then
            if Z.eqb (Type_ m) GaugeType then
              Some (Return (put_heap w (set_Value (heap w) sl i (Value m))))
            else if Z.eqb (Type_ m) CounterType then
              match assert_int64 (Value e), assert_int64 (Value m) with
              | Some a, Some b =>
                  Some (Return (put_heap w (set_Value (heap w) sl i (Int64 (add64 a b)))))
              | _, _ => Some (Panicked w)
              end
            else Some (Return w)
          else Add_loop w m (S i) n'
      end
  end.

(** [func (s *MemStorageImpl) Add(m Metric)] *)
Definition Add (w : world) (m : Metric) : outcome :=
  match Add_loop w m 0 (len (metrics (store w))) with
  | Some o => o
  | None =>
      let (h, sl) := append (heap w) (metrics (store w)) m in
      Return (World h (mkStore sl))
  end.

(** [func (s *MemStorageImpl) Get() []Metric] *)
Definition Get (w : world) : slice * world :=
  let src := metrics (store w) in
  let (h1, dst) := make (heap w) (len src) in
  (dst, put_heap w (copy h1 dst src)).

(** What a caller reads through a slice it holds. *)
Definition contents (w : world) : list Metric := elems (heap w) (metrics (store w)).
Definition view (w : world) (sl : slice) : list Metric := elems (heap w) sl.

End Runtime.

(** ** The store seen as a sequence of entries

    [merged] is what the [switch] of [Add] leaves in a matching entry and
    [upsert] is the effect of the whole call on the sequence of entries;
    [Add_spec] below proves that [Add] on the heap computes exactly this.
    [None] is the panic. *)

Definition merged (e m : Metric) : option Metric :=
  if Z.eqb (Type_ m) GaugeType then
    Some (mkMetric (Name e) (Type_ e) (Value m))
  else if Z.eqb (Type_ m) CounterType then
    match assert_int64 (Value e), assert_int64 (Value m) with
    | Some a, Some b => Some (mkMetric (Name e) (Type_ e) (Int64 (add64 a b)))
    | _, _ => None
    end
  else Some e.

Fixpoint upsert (l : list Metric) (m : Metric) : option (list Metric) :=
  match l with
  | [] => Some [m]
  | e :: l' =>
      if same_key e m then (fun e' => e' :: l') <$> merged e m
      else (fun r => e :: r) <$> upsert l' m
  end.

(** ** Well-formed states *)

(** A slice header is backed by an allocated array of its capacity. *)
Definition slice_ok (h : gmap loc (list Metric)) (sl : slice) : Prop :=
  match ptr sl with
  | Some l => exists a, h !! l = Some a /\ length a = cap sl /\ (len sl <= cap sl)%nat
  | None => len sl = O /\ cap sl = O
  end.

Definition wf (w : world) : Prop := slice_ok (heap w) (metrics (store w)).

(** A slice some caller holds does not share its array with the store. *)
Definition detached (w : world) (sl : slice) : Prop :=
  match ptr sl with
  | Some l => is_Some (heap w !! l) /\ ptr (metrics (store w)) <> Some l
  | None => True
  end.

(** Every stored key occurs once. *)
Definition unique_keys (l : list Metric) : Prop := NoDup (key <$> l).

(** The caller contract of the handler: a counter carries an [int64] in
    range and a gauge a [float64]. *)
Definition well_typed (m : Metric) : Prop :=
  (Type_ m = CounterType /\ exists z, Value m = Int64 z /\ in_int64 z) \/
  (Type_ m = GaugeType /\ exists f, Value m = Float64 f).

(** The entries with key [k]. *)
Definition with_key (k : string * MetricType) (l : list Metric) : list Metric :=
  filter (fun e => key e = k) l.

(** ** Histories of calls *)

Inductive call : Type :=
  | CallAdd (m : Metric)
  | CallGet.

Section Histories.

Variable spare : nat -> nat.

(** One call on the store; a panic of [Add] is recovered by the handler's
    middleware and the process goes on with the world the call left. *)
Definition step (w : world) (c : call) : world :=
  match c with
  | CallAdd m => after (Add spare w m)
  | CallGet => snd (Get w)
  end.

Definition run (w : world) (cs : list call) : world := fold_left step cs w.

End Histories.

(** The metrics a history adds, in order. *)
Definition added (cs : list call) : list Metric :=
  omap (fun c => match c with CallAdd m => Some m | CallGet => None end) cs.

(** The distinct elements of a list in order of first occurrence. *)
Fixpoint first_occurrences (seen ks : list (string * MetricType)) : list (string * MetricType) :=
  match ks with
  | [] => []
  | k :: ks' =>
      if decide (k ∈ seen) then first_occurrences seen ks'
      else k :: first_occurrences (k :: seen) ks'
  end.

(** The sum of the [int64] values a list of updates carries for key [k]. *)
Fixpoint total (k : string * MetricType) (ms : list Metric) : Z :=
  match ms with
  | [] => 0
  | m :: ms' =>
      (if decide (key m = k) then default 0 (assert_int64 (Value m)) else 0) + total k ms'
  end.

(** The sequence of entries after a list of updates, a panicking update
    leaving it as it was. *)
Definition upserts (l : list Metric) (ms : list Metric) : list Metric :=
  fold_left (fun l m => default l (upsert l m)) ms l.

(** Exchanging the empty name with the name [n], in a name, a metric and a
    call. *)
Definition swap_name (n s : string) : string :=
  if decide (s = "") then n else if decide (s = n) then "" else s.

Definition swap_metric (n : string) (m : Metric) : Metric :=
  mkMetric (swap_name n (Name m)) (Type_ m) (Value m).

Definition swap_call (n : string) (c : call) : call :=
  match c with
  | CallAdd m => CallAdd (swap_metric n m)
  | CallGet => CallGet
  end.

(** ** Concurrent callers

    Each request runs [Add] or [Get] in a goroutine of its own.  A caller is
    a program counter into the method body; the callers take turns in any
    order, one atomic step at a time, on the shared world and the shared
    lock.  The counter update is two steps, the read of the right-hand side
    and the write, so that only the lock keeps another caller from coming in
    between.  [Lock] waits while the lock is held in any mode and [RLock]
    while it is held for writing; Go also holds new readers back behind a
    waiting writer, which takes schedules away and adds none. *)

(** The state of [sync.RWMutex]: held for writing, and by how many readers. *)
Record RWMutex : Type := mkLock {
  writing : bool;
  reading : nat
}.

Inductive add_pc : Type :=
  | AtLock                        (* before [s.Lock()] *)
  | AtRange                       (* lock held, before [range s.metrics] *)
  | InLoop (i n : nat)            (* at index [i], [n] iterations left *)
  | AtStore (i : nat) (v : iface) (* right-hand side is [v], before the write *)
  | AtAppend                      (* loop left, before the [append] *)
  | AtUnlock (panicking : bool)   (* body left, deferred [s.Unlock()] pending *)
  | AddDone (panicked : bool).

Inductive get_pc : Type :=
  | AtRLock                       (* before [s.RLock()] *)
  | InCopy                        (* read lock held, before [make] and [copy] *)
  | AtRUnlock (s : slice)         (* deferred [s.RUnlock()] pending *)
  | GetDone (s : slice).          (* returned [s] *)

Inductive thread : Type :=
  | Adder (m : Metric) (p : add_pc)
  | Getter (p : get_pc).

Record config : Type := Config {
  lock : RWMutex;
  mem : world;
  threads : list thread
}.

Section Scheduling.

Variable spare : nat -> nat.

(** One step of a caller of [Add]; [None] when it is blocked or done. *)
Definition add_step (lk : RWMutex) (w : world) (m : Metric) (p : add_pc)
  : option (RWMutex * world * add_pc) :=
  match p with
  | AtLock =>
      if writing lk then None
      else match reading lk with
           | O => Some (mkLock true O, w, AtRange)
           | S _ => None
           end
  | AtRange => Some (lk, w, InLoop 0 (len (metrics (store w))))
  | InLoop i O => Some (lk, w, AtAppend)
  | InLoop i (S n') =>
      let sl := metrics (store w) in
      match index (heap w) sl i with
      | None => Some (lk, w, AtUnlock true)
      | Some e =>
          if same_key e m then
            if Z.eqb (Type_ m) GaugeType then Some (lk, w, AtStore i (Value m))
            else if Z.eqb (Type_ m) CounterType then
              match assert_int64 (Value e), assert_int64 (Value m) with
              | Some a, Some b => Some (lk, w, AtStore i (Int64 (add64 a b)))
              | _, _ => Some (lk, w, AtUnlock true)
              end
            else Some (lk, w, AtUnlock false)
          else Some (lk, w, InLoop (S i) n')
      end
  | AtStore i v =>
      Some (lk, put_heap w (set_Value (heap w) (metrics (store w)) i v), AtUnlock false)
  | AtAppend =>
      let (h, sl) := append spare (heap w) (metrics (store w)) m in
      Some (lk, World h (mkStore sl), AtUnlock false)
  | AtUnlock b => Some (mkLock false (reading lk), w, AddDone b)
  | AddDone _ => None
  end.

(** One step of a caller of [Get]. *)
Definition get_step (lk : RWMutex) (w : world) (p : get_pc)
  : option (RWMutex * world * get_pc) :=
  match p with
  | AtRLock =>
      if writing lk then None
      else Some (mkLock false (S (reading lk)), w, InCopy)
  | InCopy => let (s, w') := Get w in Some (lk, w', AtRUnlock s)
  | AtRUnlock s => Some (mkLock (writing lk) (Nat.pred (reading lk)), w, GetDone s)
  | GetDone _ => None
  end.

Definition thread_step (lk : RWMutex) (w : world) (t : thread)
  : option (RWMutex * world * thread) :=
  match t with
  | Adder m p =>
      match add_step lk w m p with
      | Some (lk', w', p') => Some (lk', w', Adder m p')
      | None => None
      end
  | Getter p =>
      match get_step lk w p with
      | Some (lk', w', p') => Some (lk', w', Getter p')
      | None => None
      end
  end.

(** The scheduler picks any caller that can move. *)
Inductive sched : config -> config -> Prop :=
  | sched_thread lk w ts1 t ts2 lk' w' t' :
      thread_step lk w t = Some (lk', w', t') ->
      sched (Config lk w (ts1 ++ t :: ts2)) (Config lk' w' (ts1 ++ t' :: ts2)).

(** The same choice as a function of the index of the caller, to run
    examples. *)
Definition sched_at (c : config) (k : nat) : option config :=
  match threads c !! k with
  | Some t =>
      match thread_step (lock c) (mem c) t with
      | Some (lk', w', t') => Some (Config lk' w' (<[k := t']> (threads c)))
      | None => None
      end
  | None => None
  end.

Fixpoint sched_along (c : config) (ks : list nat) : option config :=
  match ks with
  | [] => Some c
  | k :: ks' =>
      match sched_at c k with
      | Some c' => sched_along c' ks'
      | None => None
      end
  end.

(** A caller of [Add] left to itself for at most [k] steps. *)
Fixpoint add_run (k : nat) (lk : RWMutex) (w : world) (m : Metric) (p : add_pc)
  : RWMutex * world * add_pc :=
  match k with
  | O => (lk, w, p)
  | S k' =>
      match add_step lk w m p with
      | Some (lk', w', p') => add_run k' lk' w' m p'
      | None => (lk, w, p)
      end
  end.

(** What the world will be when a caller of [Add] that holds the lock has
    run to its [Unlock] undisturbed. *)
Definition pending (m : Metric) (p : add_pc) (w : world) : world :=
  match p with
  | AtRange => after (Add spare w m)
  | InLoop i n =>
      match Add_loop w m i n with
      | Some o => after o
      | None =>
          let (h, sl) := append spare (heap w) (metrics (store w)) m in
          World h (mkStore sl)
      end
  | AtStore i v => put_heap w (set_Value (heap w) (metrics (store w)) i v)
  | AtAppend =>
      let (h, sl) := append spare (heap w) (metrics (store w)) m in
      World h (mkStore sl)
  | _ => w
  end.

End Scheduling.

Definition start (w : world) (ts : list thread) : config :=
  Config (mkLock false 0) w ts.

Definition is_done (t : thread) : bool :=
  match t with
  | Adder _ (AddDone _) => true
  | Getter (GetDone _) => true
  | _ => false
  end.

Definition all_done (c : config) : Prop := Forall (fun t => is_done t = true) (threads c).

(** A caller of [Add] between its [Lock] and its [Unlock]. *)
Definition is_writing (t : thread) : bool :=
  match t with
  | Adder _ (AtRange | InLoop _ _ | AtStore _ _ | AtAppend | AtUnlock _) => true
  | _ => false
  end.

(** A caller of [Get] between its [RLock] and its [RUnlock]. *)
Definition is_reading (t : thread) : bool :=
  match t with
  | Getter (InCopy | AtRUnlock _) => true
  | _ => false
  end.

Definition writers (ts : list thread) : nat := length (filter (fun t => is_writing t = true) ts).
Definition readers (ts : list thread) : nat := length (filter (fun t => is_reading t = true) ts).

(** The metrics of the callers of [Add] that have taken the lock so far. *)
Definition started (ts : list thread) : list Metric :=
  omap (fun t => match t with
                 | Adder m AtLock => None
                 | Adder m _ => Some m
                 | Getter _ => None
                 end) ts.

(** The callers with their program counters forgotten. *)
Definition job (t : thread) : option Metric :=
  match t with
  | Adder m _ => Some m
  | Getter _ => None
  end.

(** A caller of [Add] that may still append. *)
Definition may_append (t : thread) : bool :=
  match t with
  | Adder _ (AtLock | AtRange | InLoop _ _ | AtAppend) => true
  | _ => false
  end.

Definition appenders (ts : list thread) : nat :=
  length (filter (fun t => may_append t = true) ts).

(** A bound on the steps a caller has left, while the store holds at most
    [b] entries. *)
Definition weight (b : nat) (t : thread) : nat :=
  match t with
  | Adder _ AtLock => b + 6
  | Adder _ AtRange => b + 5
  | Adder _ (InLoop _ n) => n + 4
  | Adder _ (AtStore _ _) => 2
  | Adder _ AtAppend => 2
  | Adder _ (AtUnlock _) => 1
  | Adder _ (AddDone _) => 0
  | Getter AtRLock => 3
  | Getter InCopy => 2
  | Getter (AtRUnlock _) => 1
  | Getter (GetDone _) => 0
  end.

Definition fuel (b : nat) (ts : list thread) : nat := sum_list_with (weight b) ts.

Section Invariant.

Variable spare : nat -> nat.

(** What the lock guarantees, for a store that started with the entries
    [l0] and callers with the metrics [js]: the callers inside agree with the
    state of the lock, and the entries are those of [l0] after the updates
    of the callers that took the lock, in some order, the caller inside, if
    any, counted as run to its end. *)
Definition lock_inv (l0 js : list Metric) (c : config) : Prop :=
  wf (mem c) /\
  omap job (threads c) = js /\
  reading (lock c) = readers (threads c) /\
  writers (threads c) = (if writing (lock c) then 1 else 0)%nat /\
  (writing (lock c) = true -> reading (lock c) = O) /\
  exists ms, ms ≡ₚ started (threads c) /\
    (writing (lock c) = false -> contents (mem c) = upserts l0 ms) /\
    (forall m p, Adder m p ∈ threads c -> is_writing (Adder m p) = true ->
       contents (pending spare m p (mem c)) = upserts l0 ms).

(** The store has room for one more entry per caller that may append. *)
Definition room (b : nat) (c : config) : Prop :=
  (len (metrics (store (mem c))) + appenders (threads c) <= b)%nat.

End Invariant.

(** A growth policy to run examples with: a full slice of length [n] moves
    to an array with [n] slots to spare. *)
Definition doubling (n : nat) : nat := n.

(** The last update a list of updates carries for key [k]. *)
Fixpoint last_with_key (k : string * MetricType) (ms : list Metric) : option Metric :=
  match ms with
  | [] => None
  | m :: ms' =>
      match last_with_key k ms' with
      | Some m' => Some m'
      | None => if decide (key m = k) then Some m else None
      end
  end.

(** A request as it arrives: a caller of [Add] with its metric, or a caller
    of [Get], before its first step. *)
Definition spawn (j : option Metric) : thread :=
  match j with
  | Some m => Adder m AtLock
  | None => Getter AtRLock
  end.



(** ** The HTTP handlers of [main]

    A handler is modelled by what it does to the store and by the calls it
    makes on its [gin.Context] to answer.  The requests are taken one at a
    time.  [strconv.ParseFloat], [strconv.ParseInt] and the [%v] verb of
    [fmt] are library code and come in as parameters; [None] stands for a
    parse that returns an error. *)

(** The status codes of [net/http] the handlers use. *)
Definition StatusOK : nat := 200.
Definition StatusBadRequest : nat := 400.
Definition StatusInternalServerError : nat := 500.

(** The calls on the context: [AbortWithStatusJSON] and [JSON] with the body
    [gin.H] that maps the word error to a message, [Status], and [String]
    with the text after formatting. *)
Inductive reply : Type :=
  | AbortWithStatusJSON (code : nat) (message : string)
  | JSON (code : nat) (message : string)
  | Status (code : nat)
  | String_ (code : nat) (text : string).

(** How a handler ends: it returns, or it panics and leaves the panic to the
    middleware; either way with the calls it made and the world it left. *)
Inductive handled : Type :=
  | Answered (rs : list reply) (w : world)
  | Panicking (rs : list reply) (w : world).

Inductive request : Type :=
  | PostUpdate (metricType metricName metricValueStr : string)
  | GetMetrics.

Definition newline : string := String (Ascii.ascii_of_nat 10) EmptyString.

Section Server.

Variable spare : nat -> nat.
Variable ParseFloat : string -> option float.
Variable ParseInt : string -> option Z.
Variable format_v : iface -> string.

(** [router.POST("/update/:type/:name/:value", ...)] *)
Definition update_handler (w : world) (metricType metricName metricValueStr : string)
  : handled :=
  let parsed : option (option iface) :=
    if String.eqb metricType "gauge" then Some (Float64 <$> ParseFloat metricValueStr)
    else if String.eqb metricType "counter" then Some (Int64 <$> ParseInt metricValueStr)
    else None in
  match parsed with
  | None => Answered [AbortWithStatusJSON StatusBadRequest "Invalid metric type"] w
  | Some None => Answered [AbortWithStatusJSON StatusBadRequest "Invalid metric value"] w
  | Some (Some metricValue) =>
      let metric := mkMetric metricName GaugeType metricValue in
      let metric :=
        if String.eqb metricType "counter"
        then mkMetric (Name metric) CounterType (Value metric)
        else metric in
      match Add spare w metric with
      | Return w' => Answered [Status StatusOK] w'
      | Panicked w' => Panicking [] w'
      end
  end.

(** The line [c.String] writes for one metric, format ["%s: %v\n"]. *)
Definition render (metric : Metric) : reply :=
  String_ StatusOK (Name metric ++ ": " ++ format_v (Value metric) ++ newline).

(** [router.GET("/metrics", ...)] *)
Definition metrics_handler (w : world) : handled :=
  let (metrics, w') := Get w in
  Answered (render <$> view w' metrics) w'.

(** The middleware of [router.Use]: a panic of the handler is recovered and
    answered with status 500. *)
Definition recovery (h : handled) : list reply * world :=
  match h with
  | Answered rs w => (rs, w)
  | Panicking rs w => (rs ++ [JSON StatusInternalServerError "Internal server error"], w)
  end.

Definition serve (w : world) (r : request) : list reply * world :=
  recovery
    match r with
    | PostUpdate metricType metricName metricValueStr =>
        update_handler w metricType metricName metricValueStr
    | GetMetrics => metrics_handler w
    end.

Fixpoint serve_all (w : world) (rs : list request) : list (list reply) * world :=
  match rs with
  | [] => ([], w)
  | r :: rs' =>
      let (a, w1) := serve w r in
      let (answers, w2) := serve_all w1 rs' in
      (a :: answers, w2)
  end.

(** The call on the store a request comes to, if it comes to one. *)
Definition accepted (r : request) : option call :=
  match r with
  | PostUpdate metricType metricName metricValueStr =>
      if String.eqb metricType "gauge" then
        (fun f => CallAdd (mkMetric metricName GaugeType (Float64 f)))
          <$> ParseFloat metricValueStr
      else if String.eqb metricType "counter" then
        (fun z => CallAdd (mkMetric metricName CounterType (Int64 z)))
          <$> ParseInt metricValueStr
      else None
  | GetMetrics => Some CallGet
  end.

End Server.

(** A metric whose value has the representation of its kind, whatever the
    range. *)
Definition represented (m : Metric) : Prop :=
  (Type_ m = CounterType /\ exists z, Value m = Int64 z) \/
  (Type_ m = GaugeType /\ exists f, Value m = Float64 f).

(** An answer without a recovered panic: one status for an update, lines
    only for the metrics. *)
Definition plain_answer (r : request) (a : list reply) : Prop :=
  match r with
  | PostUpdate _ _ _ =>
      a = [Status StatusOK] \/
      exists message, a = [AbortWithStatusJSON StatusBadRequest message]
  | GetMetrics => Forall (fun rep => exists text, rep = String_ StatusOK text) a
  end.

(** Stand-ins for the library functions, to run examples with: parsers that
    know a few literals, and a format that tells the representation. *)
Definition sample_ParseFloat (s : string) : option float :=
  if String.eqb s "1.5" then Some 1.5%float
  else if String.eqb s "2.5" then Some 2.5%float
  else None.

Definition sample_ParseInt (s : string) : option Z :=
  if String.eqb s "1" then Some 1
  else if String.eqb s "2" then Some 2
  else if String.eqb s "9223372036854775807" then Some max_int64
  else None.

Definition sample_format (v : iface) : string :=
  match v with
  | Nil => "nil"
  | Int64 _ => "int64"
  | Float64 _ => "float64"
  | Str s => s
  end.

(** * Proofs *)

(** ** 64-bit arithmetic *)

Lemma wrap64_range z : in_int64 (wrap64 z).
Proof.
  unfold in_int64, wrap64, min_int64, max_int64.
  pose proof (Z.mod_pos_bound (z + 2 ^ 63) (2 ^ 64) ltac:(lia)). lia.
Qed.

Lemma wrap64_id z : in_int64 z -> wrap64 z = z.
Proof.
  unfold in_int64, wrap64, min_int64, max_int64. intros H.
  rewrite Z.mod_small; lia.
Qed.

Lemma wrap64_add_l a b : wrap64 (wrap64 a + b) = wrap64 (a + b).
Proof.
  unfold wrap64.
  replace ((a + 2 ^ 63) mod 2 ^ 64 - 2 ^ 63 + b + 2 ^ 63)
    with ((a + 2 ^ 63) mod 2 ^ 64 + b) by lia.
  rewrite Zplus_mod_idemp_l. do 2 f_equal. lia.
Qed.

Lemma add64_exact a b : in_int64 (a + b) -> add64 a b = a + b.
Proof. apply wrap64_id. Qed.

(** ** Keys *)

Lemma same_key_true e m : same_key e m = true <-> key e = key m.
Proof.
  unfold same_key, key. rewrite andb_true_iff, String.eqb_eq, Z.eqb_eq.
  split; [intros [-> ->]; reflexivity | intros [= -> ->]; auto].
Qed.

Lemma merged_key e m e' : merged e m = Some e' -> key e' = key e.
Proof.
  unfold merged. intros H.
  repeat (case_match; simplify_eq); reflexivity.
Qed.

(** ** Slices over the heap *)

Lemma index_elems h sl i : index h sl i = elems h sl !! i.
Proof.
  unfold index, elems. case_decide.
  - symmetry. apply lookup_take_lt. assumption.
  - symmetry. apply lookup_take_ge. lia.
Qed.

Lemma elems_length h sl : slice_ok h sl -> length (elems h sl) = len sl.
Proof.
  unfold slice_ok, elems, backing. destruct (ptr sl) as [l|].
  - intros (a & -> & Hlen & Hle). simpl. rewrite length_take. lia.
  - intros [-> _]. reflexivity.
Qed.

Lemma alter_out_of_range {A} (f : A -> A) (l : list A) i :
  (length l <= i)%nat -> alter f i l = l.
Proof.
  revert i. induction l as [|x l IH]; intros [|i] Hi; simpl in *;
    try reflexivity; try lia.
  f_equal. apply IH. lia.
Qed.

Lemma elems_set_Value h sl i v :
  elems (set_Value h sl i v) sl =
  alter (fun e => mkMetric (Name e) (Type_ e) v) i (elems h sl).
Proof.
  unfold elems, set_Value, backing. destruct (ptr sl) as [l|]; simpl.
  - rewrite lookup_alter_eq. destruct (h !! l) as [a|]; simpl.
    + destruct (decide (i < len sl)%nat).
      * apply take_alter_lt. assumption.
      * rewrite take_alter_ge by lia.
        symmetry. apply alter_out_of_range. rewrite length_take. lia.
    + destruct (len sl), i; reflexivity.
  - destruct (len sl), i; reflexivity.
Qed.

Lemma set_Value_ok h sl i v : slice_ok h sl -> slice_ok (set_Value h sl i v) sl.
Proof.
  unfold slice_ok, set_Value. destruct (ptr sl) as [l|]; [|auto].
  intros (a & Ha & Hlen & Hle). eexists. rewrite lookup_alter_eq, Ha. simpl.
  split; [reflexivity|]. rewrite length_alter. auto.
Qed.

Lemma set_Value_other h sl i v l :
  ptr sl <> Some l -> set_Value h sl i v !! l = h !! l.
Proof.
  unfold set_Value. destruct (ptr sl) as [l0|]; [|reflexivity].
  intros Hne. apply lookup_alter_ne. congruence.
Qed.

Lemma set_Value_allocated h sl i v l :
  is_Some (h !! l) -> is_Some (set_Value h sl i v !! l).
Proof.
  unfold set_Value. destruct (ptr sl) as [l0|]; [|auto].
  intros Hl. apply lookup_alter_is_Some. assumption.
Qed.

Lemma fresh_unallocated (h : gmap loc (list Metric)) : h !! fresh (dom h) = None.
Proof. apply not_elem_of_dom. apply is_fresh. Qed.

Lemma fresh_not_allocated (h : gmap loc (list Metric)) l :
  is_Some (h !! l) -> l <> fresh (dom h).
Proof.
  intros [a Ha] ->. rewrite fresh_unallocated in Ha. discriminate.
Qed.

Ltac fresh_ne :=
  match goal with
  | H : is_Some (?h !! ?l) |- _ => pose proof (fresh_not_allocated h l H)
  end; congruence.

Section Slices.

Variable spare : nat -> nat.

Lemma append_spec h sl m h' sl' :
  slice_ok h sl ->
  append spare h sl m = (h', sl') ->
  slice_ok h' sl' /\
  elems h' sl' = elems h sl ++ [m] /\
  (forall l, is_Some (h !! l) -> is_Some (h' !! l)) /\
  (forall l, is_Some (h !! l) -> ptr sl <> Some l ->
             h' !! l = h !! l /\ ptr sl' <> Some l).
Proof.
  unfold slice_ok, append, elems, backing. destruct sl as [[l|] n c]; simpl.
  - intros (a & Ha & Hlen & Hle). rewrite Ha. simpl. case_decide; intros [= <- <-]; simpl.
    + rewrite lookup_alter_eq, Ha. simpl. repeat split.
      * eexists. split; [reflexivity|]. rewrite length_insert. lia.
      * assert (is_Some (a !! n)) as [x Hx] by (apply lookup_lt_is_Some; lia).
        rewrite (take_S_r _ _ m).
        -- rewrite take_insert_ge by lia. reflexivity.
        -- apply list_lookup_insert_eq. lia.
      * intros l0 Hl0. apply lookup_alter_is_Some. assumption.
      * apply lookup_alter_ne. congruence.
      * assumption.
    + assert (n = c) as -> by lia.
      rewrite lookup_insert_eq. simpl. repeat split.
      * eexists. split; [reflexivity|].
        rewrite length_app, length_take. simpl. rewrite length_replicate. lia.
      * rewrite (take_ge a c) by lia.
        rewrite cons_middle, app_assoc. apply take_app_length'.
        rewrite length_app. simpl. lia.
      * intros l0 Hl0. rewrite lookup_insert_ne; [assumption|].
        apply not_eq_sym, fresh_not_allocated. assumption.
      * apply lookup_insert_ne, not_eq_sym, fresh_not_allocated. assumption.
      * fresh_ne.
  - intros [-> ->] [= <- <-]. simpl. rewrite lookup_insert_eq. simpl. repeat split.
    + eexists. split; [reflexivity|]. simpl. rewrite length_replicate. lia.
    + intros l0 Hl0. rewrite lookup_insert_ne; [assumption|].
      apply not_eq_sym, fresh_not_allocated. assumption.
    + apply lookup_insert_ne, not_eq_sym, fresh_not_allocated. assumption.
    + fresh_ne.
Qed.

Lemma elems_frame h h' sl :
  (forall l, ptr sl = Some l -> h' !! l = h !! l) -> elems h' sl = elems h sl.
Proof.
  unfold elems, backing. destruct (ptr sl) as [l|]; [|reflexivity].
  intros H. rewrite (H l eq_refl). reflexivity.
Qed.

Lemma slice_ok_frame h h' sl :
  (forall l, ptr sl = Some l -> h' !! l = h !! l) -> slice_ok h sl -> slice_ok h' sl.
Proof.
  unfold slice_ok. destruct (ptr sl) as [l|]; [|auto].
  intros H. rewrite (H l eq_refl). auto.
Qed.

Lemma slice_ok_allocated h sl l : slice_ok h sl -> ptr sl = Some l -> is_Some (h !! l).
Proof.
  unfold slice_ok. intros H E. rewrite E in H. destruct H as (a & -> & _). eauto.
Qed.

Lemma Get_heap w sl w' :
  wf w ->
  Get w = (sl, w') ->
  store w' = store w /\
  sl = Slice (Some (fresh (dom (heap w)))) (len (metrics (store w))) (len (metrics (store w))) /\
  heap w' !! fresh (dom (heap w)) = Some (contents w) /\
  (forall l, is_Some (heap w !! l) -> heap w' !! l = heap w !! l).
Proof.
  unfold Get, make, copy, wf, contents. intros Hok [= <- <-]. simpl.
  set (h := heap w) in *. set (src := metrics (store w)) in *.
  assert (Hel : elems (<[fresh (dom h):=replicate (len src) zeroMetric]> h) src = elems h src).
  { apply elems_frame. intros l E. apply lookup_insert_ne.
    apply not_eq_sym, fresh_not_allocated. eapply slice_ok_allocated; eauto. }
  rewrite Hel, Nat.min_id. repeat split.
  - rewrite lookup_alter_eq, lookup_insert_eq. simpl. f_equal.
    rewrite take_ge, drop_ge.
    + apply app_nil_r.
    + rewrite length_replicate. lia.
    + rewrite elems_length by assumption. lia.
  - intros l Hl. rewrite lookup_alter_ne, lookup_insert_ne; auto; fresh_ne.
Qed.

Lemma Get_spec w sl w' :
  wf w ->
  Get w = (sl, w') ->
  store w' = store w /\
  wf w' /\
  contents w' = contents w /\
  view w' sl = contents w /\
  detached w' sl /\
  (forall l, is_Some (heap w !! l) -> heap w' !! l = heap w !! l).
Proof.
  intros Hwf HG. destruct (Get_heap w sl w' Hwf HG) as (Hst & -> & Hnew & Hfr).
  assert (Hst' : forall l, ptr (metrics (store w)) = Some l -> heap w' !! l = heap w !! l).
  { intros l E. apply Hfr. eapply slice_ok_allocated; eauto. }
  unfold wf, contents, view, detached in *. rewrite Hst. repeat split; simpl.
  - eapply slice_ok_frame; eauto.
  - apply elems_frame. assumption.
  - unfold elems, backing. simpl. rewrite Hnew. simpl.
    apply take_ge. rewrite length_take. lia.
  - rewrite Hnew. eauto.
  - intros E. pose proof (slice_ok_allocated _ _ _ Hwf E) as Hal.
    apply fresh_not_allocated in Hal. congruence.
  - assumption.
Qed.

Lemma Add_loop_spec w m n : forall i,
  wf w ->
  (i + n = len (metrics (store w)))%nat ->
  match Add_loop w m i n with
  | None => upsert (drop i (contents w)) m = Some (drop i (contents w) ++ [m])
  | Some (Return w') =>
      store w' = store w /\ wf w' /\
      take i (contents w') = take i (contents w) /\
      upsert (drop i (contents w)) m = Some (drop i (contents w')) /\
      (forall l, is_Some (heap w !! l) -> is_Some (heap w' !! l)) /\
      (forall l, ptr (metrics (store w)) <> Some l -> heap w' !! l = heap w !! l)
  | Some (Panicked w') => w' = w /\ upsert (drop i (contents w)) m = None
  end.
Proof.
  induction n as [|n IH]; intros i Hwf Hi; simpl.
  - rewrite drop_ge; [reflexivity|]. unfold contents. rewrite elems_length by assumption. lia.
  - rewrite index_elems. fold (contents w).
    assert (is_Some (contents w !! i)) as [e He].
    { apply lookup_lt_is_Some. unfold contents. rewrite elems_length by assumption. lia. }
    rewrite He. rewrite (drop_S _ _ _ He). simpl.
    destruct (same_key e m) eqn:Hk.
    + unfold merged.
      assert (Hset : forall v,
        let w' := put_heap w (set_Value (heap w) (metrics (store w)) i v) in
        store w' = store w /\ wf w' /\
        take i (contents w') = take i (contents w) /\
        Some (mkMetric (Name e) (Type_ e) v :: drop (S i) (contents w))
          = Some (drop i (contents w')) /\
        (forall l, is_Some (heap w !! l) -> is_Some (heap w' !! l)) /\
        (forall l, ptr (metrics (store w)) <> Some l -> heap w' !! l = heap w !! l)).
      { intros v w'. subst w'. unfold contents, wf, put_heap. simpl.
        rewrite elems_set_Value. fold (contents w). repeat split.
        - apply set_Value_ok. assumption.
        - apply take_alter_ge. lia.
        - erewrite (drop_S (alter _ i (contents w))).
          + rewrite drop_alter_lt by lia. reflexivity.
          + rewrite list_lookup_alter_eq, He. reflexivity.
        - intros l. apply set_Value_allocated.
        - intros l. apply set_Value_other. }
      destruct (Type_ m =? GaugeType).
      * destruct (Hset (Value m)) as (?&?&?&?&?&?). simpl. repeat split; auto.
      * destruct (Type_ m =? CounterType).
        -- destruct (assert_int64 (Value e)) as [a|]; [|auto].
           destruct (assert_int64 (Value m)) as [b|]; [|auto].
           destruct (Hset (Int64 (add64 a b))) as (?&?&?&?&?&?). simpl.
           repeat split; auto.
        -- simpl. repeat split; auto. rewrite (drop_S _ _ _ He). reflexivity.
    + specialize (IH (S i) Hwf ltac:(lia)).
      destruct (Add_loop w m (S i) n) as [[w'|w']|].
      * destruct IH as (Hst & Hwf' & Htk & Hup & Hal & Hfr). repeat split; auto.
        -- apply (f_equal (take i)) in Htk. rewrite !take_take in Htk.
           replace (i `min` S i)%nat with i in Htk by lia. exact Htk.
        -- rewrite Hup. simpl. f_equal. symmetry. apply drop_S.
           rewrite <- (lookup_take_lt _ (S i)) by lia. rewrite Htk.
           rewrite lookup_take_lt by lia. assumption.
      * destruct IH as [-> Hup]. rewrite Hup. auto.
      * rewrite IH. reflexivity.
Qed.

(** [Add] on the heap computes [upsert] on the sequence of entries, keeps
    the state well formed, and writes only to the store's own array or to a
    newly allocated one. *)
Lemma Add_spec w m :
  wf w ->
  wf (after (Add spare w m)) /\
  (forall l, is_Some (heap w !! l) -> is_Some (heap (after (Add spare w m)) !! l)) /\
  (forall l, is_Some (heap w !! l) -> ptr (metrics (store w)) <> Some l ->
     heap (after (Add spare w m)) !! l = heap w !! l /\
     ptr (metrics (store (after (Add spare w m)))) <> Some l) /\
  match upsert (contents w) m with
  | Some l' => Add spare w m = Return (after (Add spare w m)) /\
               contents (after (Add spare w m)) = l'
  | None => Add spare w m = Panicked w
  end.
Proof.
  intros Hwf. unfold Add.
  pose proof (Add_loop_spec w m (len (metrics (store w))) 0 Hwf eq_refl) as Hloop.
  rewrite drop_0 in Hloop.
  destruct (Add_loop w m 0 (len (metrics (store w)))) as [[w'|w']|]; simpl.
  - destruct Hloop as (Hst & Hwf' & _ & Hup & Hal & Hfr). rewrite Hup, drop_0, Hst.
    repeat split; auto.
  - destruct Hloop as [-> Hup]. rewrite Hup. repeat split; auto.
  - destruct (append spare (heap w) (metrics (store w)) m) as [h' sl'] eqn:Happ.
    destruct (append_spec _ _ _ _ _ Hwf Happ) as (Hok & Hel & Hal & Hfr).
    rewrite Hloop. simpl. repeat split; auto; apply Hfr; assumption.
Qed.

End Slices.

(** ** The sequence of entries under [upsert] *)

Lemma upsert_absent l m : key m ∉ key <$> l -> upsert l m = Some (l ++ [m]).
Proof.
  induction l as [|e l IH]; simpl; intros Hn; [reflexivity|].
  rewrite not_elem_of_cons in Hn. destruct Hn as [Hne Hn].
  destruct (same_key e m) eqn:Hk.
  - apply same_key_true in Hk. congruence.
  - rewrite IH by assumption. reflexivity.
Qed.

Lemma upsert_present pre e suf m :
  key m ∉ key <$> pre -> key e = key m ->
  upsert (pre ++ e :: suf) m = (fun e' => pre ++ e' :: suf) <$> merged e m.
Proof.
  intros Hn Hk. induction pre as [|x pre IH]; simpl.
  - apply same_key_true in Hk. rewrite Hk. reflexivity.
  - rewrite fmap_cons, not_elem_of_cons in Hn. destruct Hn as [Hne Hn].
    destruct (same_key x m) eqn:Hx.
    + apply same_key_true in Hx. congruence.
    + rewrite IH by assumption. destruct (merged e m); reflexivity.
Qed.

(** Every list splits at the first entry with a given key, if there is one. *)
Lemma first_with_key k l :
  k ∉ key <$> l \/
  exists pre e suf, l = pre ++ e :: suf /\ (k ∉ key <$> pre) /\ key e = k.
Proof.
  induction l as [|x l IH]; [left; apply not_elem_of_nil|].
  destruct (decide (key x = k)) as [Hx|Hx].
  - right. exists [], x, l. repeat split; [apply not_elem_of_nil | assumption].
  - destruct IH as [Hn | (pre & e & suf & -> & Hn & He)].
    + left. rewrite fmap_cons, not_elem_of_cons. auto.
    + right. exists (x :: pre), e, suf. repeat split; [|assumption].
      rewrite fmap_cons, not_elem_of_cons. auto.
Qed.

Lemma upsert_Some l m l' :
  upsert l m = Some l' ->
  ((key m ∉ key <$> l) /\ l' = l ++ [m]) \/
  (exists pre e e' suf,
     l = pre ++ e :: suf /\ (key m ∉ key <$> pre) /\ key e = key m /\
     merged e m = Some e' /\ l' = pre ++ e' :: suf).
Proof.
  intros H. destruct (first_with_key (key m) l) as [Hn | (pre & e & suf & -> & Hn & He)].
  - left. rewrite upsert_absent in H by assumption. split; congruence.
  - right. rewrite upsert_present in H by assumption.
    destruct (merged e m) as [e'|] eqn:Hm; [|discriminate].
    exists pre, e, e', suf. simpl in H. repeat split; congruence.
Qed.

Lemma upsert_None l m :
  upsert l m = None ->
  exists pre e suf,
    l = pre ++ e :: suf /\ (key m ∉ key <$> pre) /\ key e = key m /\ merged e m = None.
Proof.
  intros H. destruct (first_with_key (key m) l) as [Hn | (pre & e & suf & -> & Hn & He)].
  - rewrite upsert_absent in H by assumption. discriminate.
  - rewrite upsert_present in H by assumption.
    destruct (merged e m) eqn:Hm; [discriminate|]. eauto 10.
Qed.

Lemma upsert_keys l m l' :
  upsert l m = Some l' ->
  key <$> l' = if decide (key m ∈ key <$> l) then key <$> l else (key <$> l) ++ [key m].
Proof.
  intros H. destruct (upsert_Some _ _ _ H)
    as [[Hn ->] | (pre & e & e' & suf & -> & Hn & He & Hm & ->)].
  - rewrite decide_False by assumption. rewrite fmap_app. reflexivity.
  - rewrite decide_True.
    + rewrite !fmap_app, !fmap_cons. rewrite (merged_key _ _ _ Hm). reflexivity.
    + rewrite fmap_app, fmap_cons, He. apply elem_of_app. right. apply elem_of_cons. auto.
Qed.

Lemma upsert_unique l m l' :
  upsert l m = Some l' -> unique_keys l -> unique_keys l'.
Proof.
  unfold unique_keys. intros H Hu. rewrite (upsert_keys _ _ _ H).
  case_decide; [assumption|].
  apply NoDup_app. repeat split; [assumption | | apply NoDup_singleton].
  intros k Hk Hk'. apply list_elem_of_singleton in Hk'. congruence.
Qed.

(** Positions: an entry keeps its place and its key, and keeps its value
    too unless it is the entry with the key of [m]. *)
Lemma upsert_lookup l m l' i e :
  upsert l m = Some l' -> l !! i = Some e ->
  exists e', l' !! i = Some e' /\ key e' = key e /\ (key e <> key m -> e' = e).
Proof.
  intros H Hi. destruct (upsert_Some _ _ _ H)
    as [[Hn ->] | (pre & x & x' & suf & -> & Hn & Hx & Hm & ->)].
  - exists e. split; [|auto]. apply lookup_app_l_Some. assumption.
  - destruct (decide (i = length pre)) as [->|Hne].
    + rewrite list_lookup_middle in Hi by reflexivity. injection Hi as <-.
      exists x'. rewrite list_lookup_middle by reflexivity.
      split; [reflexivity|]. split; [eapply merged_key; eassumption | congruence].
    + exists e. split; [|auto]. rewrite <- Hi.
      rewrite !lookup_app. destruct (pre !! i) eqn:Ep; [reflexivity|].
      apply lookup_ge_None in Ep.
      destruct (i - length pre)%nat eqn:E; [lia | reflexivity].
Qed.

(** ** Entries with a given key *)

Lemma with_key_absent k l : k ∉ key <$> l -> with_key k l = [].
Proof.
  unfold with_key. induction l as [|x l IH]; [reflexivity|].
  rewrite fmap_cons, not_elem_of_cons. intros [Hne Hn].
  rewrite filter_cons_False by congruence. auto.
Qed.

Lemma with_key_app k l1 l2 : with_key k (l1 ++ l2) = with_key k l1 ++ with_key k l2.
Proof. apply filter_app. Qed.

Lemma with_key_split pre e suf :
  unique_keys (pre ++ e :: suf) -> with_key (key e) (pre ++ e :: suf) = [e].
Proof.
  unfold unique_keys. rewrite fmap_app, fmap_cons. intros Hu.
  apply NoDup_app in Hu. destruct Hu as (_ & Hdis & Hu).
  apply NoDup_cons in Hu. destruct Hu as [Hsuf _].
  rewrite with_key_app. rewrite (with_key_absent _ pre).
  - unfold with_key at 1. rewrite filter_cons_True by reflexivity.
    fold (with_key (key e) suf). rewrite with_key_absent by assumption. reflexivity.
  - intros Hin. apply (Hdis _ Hin). apply elem_of_cons. auto.
Qed.

Lemma with_key_unique l e : unique_keys l -> e ∈ l -> with_key (key e) l = [e].
Proof.
  intros Hu Hin. apply list_elem_of_split in Hin. destruct Hin as (pre & suf & ->).
  apply with_key_split. assumption.
Qed.

Lemma with_key_elem k l e : e ∈ with_key k l <-> e ∈ l /\ key e = k.
Proof. unfold with_key. rewrite list_elem_of_filter. tauto. Qed.

(** In a store with unique keys the first entry with a key is the only one:
    what [upsert] does to the entry with the key of [m]. *)
Lemma upsert_with_key l m e l' :
  unique_keys l -> e ∈ l -> key e = key m -> upsert l m = Some l' ->
  exists e', merged e m = Some e' /\ with_key (key m) l' = [e'] /\ length l' = length l.
Proof.
  intros Hu Hin Hk H. pose proof (upsert_unique _ _ _ H Hu) as Hu'.
  destruct (upsert_Some _ _ _ H)
    as [[Hn ->] | (pre & x & x' & suf & -> & Hn & Hx & Hm & ->)].
  - exfalso. apply Hn. rewrite <- Hk. apply list_elem_of_fmap_2. assumption.
  - assert (x = e) as ->.
    { pose proof (with_key_split _ _ _ Hu) as Hw.
      assert (e ∈ with_key (key x) (pre ++ x :: suf)) as He
        by (apply with_key_elem; split; [assumption | congruence]).
      rewrite Hw in He. apply list_elem_of_singleton in He. congruence. }
    exists x'. split; [assumption|]. split.
    + rewrite <- Hk, <- (merged_key _ _ _ Hm). apply with_key_split. assumption.
    + rewrite !length_app. reflexivity.
Qed.

Lemma upsert_with_key_other l m l' k :
  k <> key m -> upsert l m = Some l' -> with_key k l' = with_key k l.
Proof.
  intros Hk H. destruct (upsert_Some _ _ _ H)
    as [[Hn ->] | (pre & x & x' & suf & -> & Hn & Hx & Hm & ->)].
  - rewrite with_key_app. unfold with_key at 2.
    rewrite filter_cons_False by congruence. apply app_nil_r.
  - rewrite !with_key_app. f_equal. unfold with_key.
    pose proof (merged_key _ _ _ Hm).
    rewrite !filter_cons_False by congruence. reflexivity.
Qed.

(** ** The store under calls *)

Lemma NewMemStorage_wf : wf NewMemStorage.
Proof. split; reflexivity. Qed.

Lemma NewMemStorage_contents : contents NewMemStorage = [].
Proof. reflexivity. Qed.

Lemma Get_contents w : wf w -> contents (snd (Get w)) = contents w.
Proof.
  intros Hwf. destruct (Get w) as [sl w'] eqn:HG.
  apply (Get_spec w sl w' Hwf HG).
Qed.

Lemma Get_wf w : wf w -> wf (snd (Get w)).
Proof.
  intros Hwf. destruct (Get w) as [sl w'] eqn:HG.
  apply (Get_spec w sl w' Hwf HG).
Qed.

Lemma first_occurrences_seen s1 s2 ks :
  (forall k, k ∈ s1 <-> k ∈ s2) -> first_occurrences s1 ks = first_occurrences s2 ks.
Proof.
  revert s1 s2. induction ks as [|k ks IH]; intros s1 s2 Hs; simpl; [reflexivity|].
  destruct (decide (k ∈ s1)) as [H1|H1], (decide (k ∈ s2)) as [H2|H2];
    try (apply Hs in H1; contradiction); try (apply Hs in H2; contradiction).
  - apply IH. assumption.
  - f_equal. apply IH. intros x. rewrite !elem_of_cons, Hs. reflexivity.
Qed.

Section Store.

Variable spare : nat -> nat.

Lemma Add_contents w m :
  wf w ->
  contents (after (Add spare w m)) = default (contents w) (upsert (contents w) m).
Proof.
  intros Hwf. destruct (Add_spec spare w m Hwf) as (_ & _ & _ & H).
  destruct (upsert (contents w) m) as [l'|]; simpl.
  - apply H.
  - rewrite H. reflexivity.
Qed.

Lemma Add_returns w m :
  wf w -> is_Some (upsert (contents w) m) ->
  Add spare w m = Return (after (Add spare w m)).
Proof.
  intros Hwf [l' Hl']. destruct (Add_spec spare w m Hwf) as (_ & _ & _ & H).
  rewrite Hl' in H. apply H.
Qed.

Lemma Add_panics w m :
  wf w -> upsert (contents w) m = None -> Add spare w m = Panicked w.
Proof.
  intros Hwf Hn. destruct (Add_spec spare w m Hwf) as (_ & _ & _ & H).
  rewrite Hn in H. apply H.
Qed.

Lemma Add_wf w m : wf w -> wf (after (Add spare w m)).
Proof. intros Hwf. apply (Add_spec spare w m Hwf). Qed.

Lemma Add_unique w m :
  wf w -> unique_keys (contents w) -> unique_keys (contents (after (Add spare w m))).
Proof.
  intros Hwf Hu. rewrite Add_contents by assumption.
  destruct (upsert (contents w) m) as [l'|] eqn:E; simpl; [|assumption].
  eapply upsert_unique; eassumption.
Qed.

Lemma step_wf w c : wf w -> wf (step spare w c).
Proof. destruct c; [apply Add_wf | apply Get_wf]. Qed.

Lemma step_unique w c :
  wf w -> unique_keys (contents w) -> unique_keys (contents (step spare w c)).
Proof.
  destruct c; intros Hwf Hu.
  - apply Add_unique; assumption.
  - change (step spare w CallGet) with (snd (Get w)).
    rewrite Get_contents; assumption.
Qed.

Lemma run_snoc w cs c : run spare w (cs ++ [c]) = step spare (run spare w cs) c.
Proof. unfold run. rewrite fold_left_app. reflexivity. Qed.

Lemma run_cons w cs c : run spare w (c :: cs) = run spare (step spare w c) cs.
Proof. reflexivity. Qed.

Lemma run_wf w cs : wf w -> wf (run spare w cs).
Proof.
  revert w. induction cs as [|c cs IH]; intros w Hwf; [assumption|].
  rewrite run_cons. apply IH, step_wf, Hwf.
Qed.

Lemma run_unique w cs :
  wf w -> unique_keys (contents w) -> unique_keys (contents (run spare w cs)).
Proof.
  revert w. induction cs as [|c cs IH]; intros w Hwf Hu; [assumption|].
  rewrite run_cons. apply IH; [apply step_wf | apply step_unique]; assumption.
Qed.

Lemma reachable_wf cs : wf (run spare NewMemStorage cs).
Proof. apply run_wf, NewMemStorage_wf. Qed.

Lemma reachable_unique cs : unique_keys (contents (run spare NewMemStorage cs)).
Proof. apply run_unique; [apply NewMemStorage_wf | apply NoDup_nil_2]. Qed.

(** The keys of the store after a history: those it had, then the new ones
    in the order of their first [Add]. *)
Lemma run_keys w cs :
  wf w ->
  key <$> contents (run spare w cs) =
  (key <$> contents w) ++ first_occurrences (key <$> contents w) (key <$> added cs).
Proof.
  revert w. induction cs as [|c cs IH]; intros w Hwf.
  - simpl. symmetry. apply app_nil_r.
  - rewrite run_cons, IH by (apply step_wf; assumption).
    destruct c as [m|].
    + change (step spare w (CallAdd m)) with (after (Add spare w m)).
      change (added (CallAdd m :: cs)) with (m :: added cs).
      rewrite Add_contents, fmap_cons by assumption.
      destruct (upsert (contents w) m) as [l'|] eqn:E; simpl.
      * rewrite (upsert_keys _ _ _ E).
        destruct (decide (key m ∈ key <$> contents w)) as [Hin|Hin]; [reflexivity|].
        rewrite <- app_assoc. simpl. do 2 f_equal.
        apply first_occurrences_seen. intros k.
        rewrite elem_of_app, !elem_of_cons, elem_of_nil. tauto.
      * destruct (upsert_None _ _ E) as (pre & e & suf & Hl & _ & He & _).
        rewrite decide_True; [reflexivity|].
        rewrite Hl, fmap_app, fmap_cons, He. apply elem_of_app. right. apply elem_of_cons. auto.
    + change (step spare w CallGet) with (snd (Get w)).
      rewrite Get_contents by assumption. reflexivity.
Qed.

End Store.

Lemma upsert_of_entry l m e :
  unique_keys l -> e ∈ l -> key e = key m ->
  match merged e m with
  | Some e' => exists l', upsert l m = Some l' /\ with_key (key m) l' = [e'] /\
                          length l' = length l
  | None => upsert l m = None
  end.
Proof.
  intros Hu Hin Hk. destruct (list_elem_of_split _ _ Hin) as (pre & suf & ->).
  assert (key m ∉ key <$> pre) as Hn.
  { unfold unique_keys in Hu. rewrite fmap_app, fmap_cons in Hu.
    apply NoDup_app in Hu. destruct Hu as (_ & Hdis & _).
    intros Hp. apply (Hdis _ Hp). rewrite Hk. apply elem_of_cons. auto. }
  pose proof (upsert_present pre e suf m Hn Hk) as Hup.
  destruct (merged e m) as [e'|] eqn:Hm; simpl in Hup; [|assumption].
  eexists. split; [eassumption|].
  destruct (upsert_with_key _ _ _ _ Hu Hin Hk Hup) as (e'' & He'' & Hw & Hlen).
  split; congruence.
Qed.

Lemma total_app k ms1 ms2 : total k (ms1 ++ ms2) = total k ms1 + total k ms2.
Proof. induction ms1 as [|m ms1 IH]; simpl; [reflexivity | rewrite IH; lia]. Qed.

Lemma total_absent k ms : k ∉ key <$> ms -> total k ms = 0.
Proof.
  induction ms as [|m ms IH]; simpl; [reflexivity|].
  rewrite not_elem_of_cons. intros [Hne Hn].
  rewrite decide_False by congruence. rewrite IH by assumption. reflexivity.
Qed.

Lemma first_occurrences_elem seen ks k :
  k ∈ first_occurrences seen ks <-> k ∈ ks /\ k ∉ seen.
Proof.
  revert seen. induction ks as [|x ks IH]; intros seen; simpl.
  - rewrite !elem_of_nil. tauto.
  - destruct (decide (x ∈ seen)) as [Hx|Hx].
    + rewrite IH, elem_of_cons. split; [tauto|]. intros [[->|?] ?]; tauto.
    + rewrite !elem_of_cons, IH, elem_of_cons.
      destruct (decide (k = x)) as [->|Hne]; tauto.
Qed.

Lemma added_snoc cs c :
  added (cs ++ [c]) = added cs ++ match c with CallAdd m => [m] | CallGet => [] end.
Proof. unfold added. rewrite omap_app. destruct c; reflexivity. Qed.

Lemma unique_keys_middle pre x suf e :
  unique_keys (pre ++ x :: suf) -> e ∈ pre \/ e ∈ suf -> key e <> key x.
Proof.
  unfold unique_keys. rewrite fmap_app, fmap_cons. intros Hu.
  apply NoDup_app in Hu. destruct Hu as (_ & Hdis & Hu).
  apply NoDup_cons in Hu. destruct Hu as [Hsuf _].
  intros [He|He] Hk.
  - apply (Hdis (key e)); [apply list_elem_of_fmap_2; assumption|].
    rewrite Hk. apply elem_of_cons. auto.
  - apply Hsuf. rewrite <- Hk. apply list_elem_of_fmap_2. assumption.
Qed.

Lemma merged_counter x m a d :
  Type_ m = CounterType -> Value x = Int64 a -> Value m = Int64 d ->
  merged x m = Some (mkMetric (Name x) (Type_ x) (Int64 (add64 a d))).
Proof. unfold merged. intros -> -> ->. reflexivity. Qed.

Lemma merged_gauge x m :
  Type_ m = GaugeType -> merged x m = Some (mkMetric (Name x) (Type_ x) (Value m)).
Proof. unfold merged. intros ->. reflexivity. Qed.

Lemma merged_None x m :
  merged x m = None ->
  Type_ m = CounterType /\ (assert_int64 (Value x) = None \/ assert_int64 (Value m) = None).
Proof.
  unfold merged. destruct (Z.eqb_spec (Type_ m) GaugeType); [discriminate|].
  destruct (Z.eqb_spec (Type_ m) CounterType); [|discriminate].
  destruct (assert_int64 (Value x)); [|auto].
  destruct (assert_int64 (Value m)); [discriminate | auto].
Qed.

Lemma well_typed_counter n z : in_int64 z -> well_typed (mkMetric n CounterType (Int64 z)).
Proof. intros Hz. left. split; [reflexivity|]. exists z. auto. Qed.

Lemma well_typed_gauge n f : well_typed (mkMetric n GaugeType (Float64 f)).
Proof. right. split; [reflexivity|]. exists f. reflexivity. Qed.

Section Totals.

Variable spare : nat -> nat.

Lemma reachable_keys cs k :
  k ∈ key <$> contents (run spare NewMemStorage cs) <-> k ∈ key <$> added cs.
Proof.
  rewrite run_keys by apply NewMemStorage_wf. rewrite NewMemStorage_contents. simpl.
  rewrite first_occurrences_elem, elem_of_nil. tauto.
Qed.

(** Under the caller contract every stored counter holds the wrapped sum of
    the values added under its key. *)
Lemma run_counter_total cs :
  Forall well_typed (added cs) ->
  forall e, e ∈ contents (run spare NewMemStorage cs) -> Type_ e = CounterType ->
  Value e = Int64 (wrap64 (total (key e) (added cs))).
Proof.
  induction cs as [|c cs IH] using rev_ind; intros Hty e He Hc.
  - change (contents (run spare NewMemStorage [])) with (@nil Metric) in He.
    apply elem_of_nil in He. contradiction.
  - rewrite run_snoc in He. rewrite added_snoc in Hty |- *.
    apply Forall_app in Hty. destruct Hty as [Hty Hm].
    specialize (IH Hty). set (w := run spare NewMemStorage cs) in *.
    assert (Hwf : wf w) by apply reachable_wf.
    assert (Hu : unique_keys (contents w)) by apply reachable_unique.
    destruct c as [m|].
    + change (step spare w (CallAdd m)) with (after (Add spare w m)) in He.
      rewrite Add_contents in He by assumption.
      rewrite Forall_singleton in Hm. rewrite total_app. simpl.
      destruct (upsert (contents w) m) as [l'|] eqn:E; simpl in He.
      * destruct (upsert_Some _ _ _ E)
          as [[Hn ->] | (pre & x & x' & suf & Hl & Hn & Hx & Hmg & ->)].
        -- apply elem_of_app in He. destruct He as [He|He].
           ++ rewrite decide_False.
              ** rewrite !Z.add_0_r. apply IH; assumption.
              ** intros Hk. apply Hn. rewrite Hk. apply list_elem_of_fmap_2. assumption.
           ++ apply list_elem_of_singleton in He. subst e.
              rewrite decide_True by reflexivity.
              rewrite total_absent by (rewrite <- reachable_keys; exact Hn).
              destruct Hm as [(_ & z & Hz & Hr) | (Hg & _)];
                [|unfold GaugeType, CounterType in *; congruence].
              rewrite Hz. simpl. rewrite Z.add_0_r, wrap64_id by assumption. reflexivity.
        -- rewrite Hl in Hu, IH.
           apply elem_of_app in He. rewrite elem_of_cons in He.
           destruct He as [He | [-> | He]].
           ++ assert (key e <> key x) by (eapply unique_keys_middle; eauto).
              rewrite decide_False by congruence. rewrite !Z.add_0_r.
              apply IH; [|assumption]. apply elem_of_app. auto.
           ++ pose proof (merged_key _ _ _ Hmg) as Hkx.
              assert (Type_ x = CounterType) as Hcx by (unfold key in Hkx; congruence).
              assert (Type_ m = CounterType) as Hcm by (unfold key in Hx; congruence).
              assert (Value x = Int64 (wrap64 (total (key x) (added cs)))) as Hvx.
              { apply IH; [|assumption]. apply elem_of_app. right. apply elem_of_cons. auto. }
              destruct Hm as [(_ & z & Hz & Hr) | (Hg & _)];
                [|unfold GaugeType, CounterType in *; congruence].
              rewrite (merged_counter _ _ _ _ Hcm Hvx Hz) in Hmg. injection Hmg as <-.
              simpl. rewrite decide_True by (symmetry; exact Hx).
              rewrite Hz. simpl. unfold add64. rewrite wrap64_add_l.
              do 2 f_equal. unfold key. simpl. fold (key x). lia.
           ++ assert (key e <> key x) by (eapply unique_keys_middle; eauto).
              rewrite decide_False by congruence. rewrite !Z.add_0_r.
              apply IH; [|assumption]. apply elem_of_app. right. apply elem_of_cons. auto.
      * exfalso. destruct (upsert_None _ _ E) as (pre & x & suf & Hl & _ & Hx & Hmg).
        apply merged_None in Hmg. destruct Hmg as [Hcm [Hax|Ham]].
        -- rewrite (IH x) in Hax; [discriminate | |unfold key in Hx; congruence].
           rewrite Hl. apply elem_of_app. right. apply elem_of_cons. auto.
        -- destruct Hm as [(_ & z & Hz & Hr) | (Hg & _)];
             [|unfold GaugeType, CounterType in *; congruence].
           rewrite Hz in Ham. discriminate.
    + change (step spare w CallGet) with (snd (Get w)) in He.
      rewrite Get_contents in He by assumption. rewrite app_nil_r. apply IH; assumption.
Qed.

End Totals.

Section Updates.

Variable spare : nat -> nat.

(** An [Add] under a key the store holds, in a store with unique keys. *)
Lemma Add_existing w m e e' :
  wf w -> unique_keys (contents w) ->
  e ∈ contents w -> key e = key m -> merged e m = Some e' ->
  Add spare w m = Return (after (Add spare w m)) /\
  with_key (key m) (contents (after (Add spare w m))) = [e'] /\
  length (contents (after (Add spare w m))) = length (contents w).
Proof.
  intros Hwf Hu Hin Hk Hm.
  pose proof (upsert_of_entry _ _ _ Hu Hin Hk) as H. rewrite Hm in H.
  destruct H as (l' & Hup & Hw & Hlen).
  split; [apply Add_returns; [assumption | rewrite Hup; eauto]|].
  rewrite Add_contents, Hup by assumption. auto.
Qed.

(** An [Add] under a key the store does not hold. *)
Lemma Add_new w m :
  wf w -> key m ∉ key <$> contents w ->
  Add spare w m = Return (after (Add spare w m)) /\
  contents (after (Add spare w m)) = contents w ++ [m].
Proof.
  intros Hwf Hn. pose proof (upsert_absent _ _ Hn) as Hup.
  split; [apply Add_returns; [assumption | rewrite Hup; eauto]|].
  rewrite Add_contents, Hup by assumption. reflexivity.
Qed.

End Updates.

Lemma with_key_at_most_one l k : unique_keys l -> (length (with_key k l) <= 1)%nat.
Proof.
  intros Hu. destruct (decide (k ∈ key <$> l)) as [Hin|Hn].
  - apply list_elem_of_fmap in Hin. destruct Hin as (e & -> & He).
    rewrite (with_key_unique _ _ Hu He). reflexivity.
  - rewrite with_key_absent by assumption. simpl. lia.
Qed.

Section Frames.

Variable spare : nat -> nat.

Lemma Add_keys w m :
  wf w ->
  key <$> contents (after (Add spare w m)) =
  if decide (key m ∈ key <$> contents w) then key <$> contents w
  else (key <$> contents w) ++ [key m].
Proof.
  intros Hwf. rewrite Add_contents by assumption.
  destruct (upsert (contents w) m) as [l'|] eqn:E; simpl.
  - apply upsert_keys. assumption.
  - destruct (upsert_None _ _ E) as (pre & e & suf & Hl & _ & He & _).
    rewrite decide_True; [reflexivity|].
    rewrite Hl, fmap_app, fmap_cons, He. apply elem_of_app. right. apply elem_of_cons. auto.
Qed.

Lemma Add_keys_elem w m k :
  wf w ->
  k ∈ key <$> contents (after (Add spare w m)) <-> k ∈ key <$> contents w \/ k = key m.
Proof.
  intros Hwf. rewrite Add_keys by assumption. case_decide.
  - split; [auto|]. intros [?| ->]; assumption.
  - rewrite elem_of_app, list_elem_of_singleton. reflexivity.
Qed.

Lemma Add_length w m :
  wf w ->
  length (contents (after (Add spare w m))) =
  if decide (key m ∈ key <$> contents w) then length (contents w)
  else S (length (contents w)).
Proof.
  intros Hwf. pose proof (Add_keys w m Hwf) as H. apply (f_equal length) in H.
  rewrite length_fmap in H. rewrite H. case_decide.
  - apply length_fmap.
  - rewrite length_app, length_fmap. simpl. lia.
Qed.

Lemma Add_lookup w m i e :
  wf w -> contents w !! i = Some e ->
  exists e', contents (after (Add spare w m)) !! i = Some e' /\
             key e' = key e /\ (key e <> key m -> e' = e).
Proof.
  intros Hwf Hi. rewrite Add_contents by assumption.
  destruct (upsert (contents w) m) as [l'|] eqn:E; simpl.
  - eapply upsert_lookup; eassumption.
  - exists e. auto.
Qed.

Lemma Add_with_key_other w m k :
  wf w -> k <> key m ->
  with_key k (contents (after (Add spare w m))) = with_key k (contents w).
Proof.
  intros Hwf Hk. rewrite Add_contents by assumption.
  destruct (upsert (contents w) m) as [l'|] eqn:E; simpl; [|reflexivity].
  eapply upsert_with_key_other; eassumption.
Qed.

Lemma Add_with_key_one w m :
  wf w -> unique_keys (contents w) ->
  exists e, with_key (key m) (contents (after (Add spare w m))) = [e].
Proof.
  intros Hwf Hu.
  assert (key m ∈ key <$> contents (after (Add spare w m))) as Hin
    by (apply Add_keys_elem; auto).
  apply list_elem_of_fmap in Hin. destruct Hin as (e & Hk & He).
  exists e. rewrite Hk. apply with_key_unique; [apply Add_unique|]; assumption.
Qed.

Lemma Add_new_with_key w m :
  wf w -> unique_keys (contents w) -> key m ∉ key <$> contents w ->
  with_key (key m) (contents (after (Add spare w m))) = [m].
Proof.
  intros Hwf Hu Hn. apply with_key_unique; [apply Add_unique; assumption|].
  destruct (Add_new spare w m Hwf Hn) as [_ ->]. apply elem_of_app. right.
  apply list_elem_of_here.
Qed.

Lemma Add_gauge_with_key w m :
  wf w -> unique_keys (contents w) -> Type_ m = GaugeType ->
  with_key (key m) (contents (after (Add spare w m))) = [m].
Proof.
  intros Hwf Hu Hg. destruct (decide (key m ∈ key <$> contents w)) as [Hin|Hn].
  - apply list_elem_of_fmap in Hin. destruct Hin as (e & Hk & He).
    destruct (Add_existing spare w m e (mkMetric (Name e) (Type_ e) (Value m)))
      as (_ & Hw & _); auto using merged_gauge.
    rewrite Hw. f_equal. destruct m as [n t v]. unfold key in Hk. simpl in *. congruence.
  - apply Add_new_with_key; assumption.
Qed.

End Frames.

(** ** Snapshots *)

Section Snapshots.

Variable spare : nat -> nat.

(** A call on the store neither writes to the array of a detached slice nor
    makes the store share it. *)
Lemma step_detached w c sl :
  wf w -> detached w sl ->
  detached (step spare w c) sl /\ view (step spare w c) sl = view w sl.
Proof.
  intros Hwf Hd. unfold detached, view in *.
  destruct (ptr sl) as [l|] eqn:E.
  - destruct Hd as [Hal Hne]. destruct c as [m|].
    + change (step spare w (CallAdd m)) with (after (Add spare w m)).
      destruct (Add_spec spare w m Hwf) as (_ & Hal' & Hfr & _).
      destruct (Hfr l Hal Hne) as [Heq Hne']. repeat split; auto.
      apply elems_frame. intros l0 E0. congruence.
    + change (step spare w CallGet) with (snd (Get w)).
      destruct (Get w) as [s1 w1] eqn:HG. simpl.
      destruct (Get_spec w s1 w1 Hwf HG) as (Hst & _ & _ & _ & _ & Hfr).
      rewrite Hst, (Hfr l Hal). repeat split; auto.
      apply elems_frame. intros l0 E0. assert (l0 = l) as -> by congruence. auto.
  - split; [exact I|]. unfold elems, backing. rewrite E. reflexivity.
Qed.

Lemma run_detached w cs sl :
  wf w -> detached w sl -> view (run spare w cs) sl = view w sl.
Proof.
  revert w. induction cs as [|c cs IH]; intros w Hwf Hd; [reflexivity|].
  rewrite run_cons. destruct (step_detached w c sl Hwf Hd) as [Hd' Hv].
  rewrite IH; [assumption | apply step_wf; assumption | assumption].
Qed.

(** Under the caller contract no [Add] panics. *)
Lemma Add_typed_returns cs m :
  Forall well_typed (added cs) -> well_typed m ->
  Add spare (run spare NewMemStorage cs) m =
  Return (after (Add spare (run spare NewMemStorage cs) m)).
Proof.
  intros Hty Hm. apply Add_returns; [apply reachable_wf|].
  destruct (upsert (contents (run spare NewMemStorage cs)) m) as [l'|] eqn:E; [eauto|].
  exfalso. destruct (upsert_None _ _ E) as (pre & x & suf & Hl & _ & Hx & Hmg).
  apply merged_None in Hmg. destruct Hmg as [Hcm [Hax|Ham]].
  - rewrite (run_counter_total spare cs Hty x) in Hax;
      [discriminate | | unfold key in Hx; congruence].
    rewrite Hl. apply elem_of_app. right. apply list_elem_of_here.
  - destruct Hm as [(_ & z & Hz & _) | (Hg & _)];
      [|unfold GaugeType, CounterType in *; congruence].
    rewrite Hz in Ham. discriminate.
Qed.

End Snapshots.

(** ** Names are compared, never inspected *)

Lemma swap_name_involutive n s : swap_name n (swap_name n s) = s.
Proof. unfold swap_name. repeat case_decide; congruence. Qed.

Lemma swap_name_inj n s1 s2 : swap_name n s1 = swap_name n s2 -> s1 = s2.
Proof.
  intros H. rewrite <- (swap_name_involutive n s1), <- (swap_name_involutive n s2).
  congruence.
Qed.

Lemma same_key_swap n e m : same_key (swap_metric n e) (swap_metric n m) = same_key e m.
Proof.
  unfold same_key, swap_metric. simpl. f_equal.
  destruct (String.eqb_spec (Name e) (Name m)) as [->|Hne].
  - apply String.eqb_refl.
  - apply String.eqb_neq. intros H. apply Hne. eapply swap_name_inj. eassumption.
Qed.

Lemma merged_swap n e m :
  merged (swap_metric n e) (swap_metric n m) = swap_metric n <$> merged e m.
Proof.
  unfold merged, swap_metric. simpl.
  repeat (case_match; simpl; try reflexivity).
Qed.

Lemma upsert_swap n (l : list Metric) m :
  upsert (swap_metric n <$> l) (swap_metric n m) =
  (fun l' : list Metric => swap_metric n <$> l') <$> upsert l m.
Proof.
  induction l as [|e l IH]; [reflexivity|]. rewrite fmap_cons. simpl.
  rewrite same_key_swap. destruct (same_key e m).
  - rewrite merged_swap. destruct (merged e m); reflexivity.
  - rewrite IH. destruct (upsert l m); reflexivity.
Qed.

Lemma upserts_swap n (ms l : list Metric) :
  upserts (swap_metric n <$> l) (swap_metric n <$> ms) = swap_metric n <$> upserts l ms.
Proof.
  revert l. induction ms as [|m ms IH]; intros l; [reflexivity|].
  rewrite fmap_cons. unfold upserts in *. simpl. rewrite upsert_swap.
  destruct (upsert l m) as [l'|]; simpl; apply IH.
Qed.

Lemma added_swap n cs : added (swap_call n <$> cs) = swap_metric n <$> added cs.
Proof.
  induction cs as [|[m|] cs IH]; [reflexivity| |]; rewrite fmap_cons.
  - change (added (swap_call n (CallAdd m) :: (swap_call n <$> cs)))
      with (swap_metric n m :: added (swap_call n <$> cs)).
    rewrite IH. reflexivity.
  - exact IH.
Qed.

Lemma run_contents (spare : nat -> nat) w cs :
  wf w -> contents (run spare w cs) = upserts (contents w) (added cs).
Proof.
  revert w. induction cs as [|c cs IH]; intros w Hwf; [reflexivity|].
  rewrite run_cons, IH by (apply step_wf; assumption). destruct c as [m|].
  - change (step spare w (CallAdd m)) with (after (Add spare w m)).
    rewrite Add_contents by assumption. reflexivity.
  - change (step spare w CallGet) with (snd (Get w)).
    rewrite Get_contents by assumption. reflexivity.
Qed.

(** ** Concurrent callers *)

Lemma writers_middle ts1 t ts2 :
  writers (ts1 ++ t :: ts2) =
  (writers ts1 + (if is_writing t then 1 else 0) + writers ts2)%nat.
Proof.
  unfold writers. rewrite filter_app, length_app.
  destruct (is_writing t) eqn:E.
  - rewrite filter_cons_True by assumption. simpl. lia.
  - rewrite filter_cons_False by congruence. lia.
Qed.

Lemma readers_middle ts1 t ts2 :
  readers (ts1 ++ t :: ts2) =
  (readers ts1 + (if is_reading t then 1 else 0) + readers ts2)%nat.
Proof.
  unfold readers. rewrite filter_app, length_app.
  destruct (is_reading t) eqn:E.
  - rewrite filter_cons_True by assumption. simpl. lia.
  - rewrite filter_cons_False by congruence. lia.
Qed.

Lemma writers_none ts t : writers ts = O -> t ∈ ts -> is_writing t = false.
Proof.
  intros Hw Hin. apply list_elem_of_split in Hin. destruct Hin as (ts1 & ts2 & ->).
  rewrite writers_middle in Hw. destruct (is_writing t); [lia | reflexivity].
Qed.

Lemma writers_some ts : writers ts <> O -> exists ts1 t ts2, ts = ts1 ++ t :: ts2 /\ is_writing t = true.
Proof.
  unfold writers. intros Hw.
  destruct (filter (fun t => is_writing t = true) ts) as [|t l] eqn:E; [contradiction|].
  assert (t ∈ filter (fun t => is_writing t = true) ts) as Hin by (rewrite E; apply list_elem_of_here).
  apply list_elem_of_filter in Hin. destruct Hin as [Ht Hin].
  apply list_elem_of_split in Hin. destruct Hin as (ts1 & ts2 & ->). eauto.
Qed.

Lemma readers_some ts : readers ts <> O -> exists ts1 t ts2, ts = ts1 ++ t :: ts2 /\ is_reading t = true.
Proof.
  unfold readers. intros Hw.
  destruct (filter (fun t => is_reading t = true) ts) as [|t l] eqn:E; [contradiction|].
  assert (t ∈ filter (fun t => is_reading t = true) ts) as Hin by (rewrite E; apply list_elem_of_here).
  apply list_elem_of_filter in Hin. destruct Hin as [Ht Hin].
  apply list_elem_of_split in Hin. destruct Hin as (ts1 & ts2 & ->). eauto.
Qed.

Lemma started_middle ts1 t ts2 :
  started (ts1 ++ t :: ts2) = started ts1 ++ started [t] ++ started ts2.
Proof. unfold started. rewrite omap_app, (omap_app _ [t] ts2). reflexivity. Qed.

Lemma jobs_middle ts1 t ts2 :
  omap job (ts1 ++ t :: ts2) = omap job ts1 ++ omap job [t] ++ omap job ts2.
Proof. rewrite omap_app, (omap_app _ [t] ts2). reflexivity. Qed.

Lemma started_done ts : Forall (fun t => is_done t = true) ts -> started ts = omap job ts.
Proof.
  induction 1 as [|t ts Ht _ IH]; [reflexivity|].
  change (started ([] ++ t :: ts) = omap job ([] ++ t :: ts)).
  rewrite started_middle, jobs_middle, IH. do 2 f_equal.
  destruct t as [m []|[]]; try discriminate; reflexivity.
Qed.

Lemma writers_done ts : Forall (fun t => is_done t = true) ts -> writers ts = O.
Proof.
  induction 1 as [|t ts Ht _ IH]; [reflexivity|].
  change (t :: ts) with ([] ++ t :: ts). rewrite writers_middle, IH.
  destruct t as [m []|[]]; try discriminate; reflexivity.
Qed.

Lemma upserts_snoc l ms m :
  upserts l (ms ++ [m]) = default (upserts l ms) (upsert (upserts l ms) m).
Proof. unfold upserts. rewrite fold_left_app. reflexivity. Qed.

Section Callers.

Variable spare : nat -> nat.

Lemma append_len h sl m :
  (len (snd (append spare h sl m)) <= S (len sl))%nat.
Proof.
  unfold append. destruct (ptr sl); [case_decide|]; simpl; lia.
Qed.

Lemma pending_range w m : pending spare m (InLoop 0 (len (metrics (store w)))) w = after (Add spare w m).
Proof.
  unfold pending, Add. destruct (Add_loop w m 0 (len (metrics (store w)))); [reflexivity|].
  destruct (append spare (heap w) (metrics (store w)) m). reflexivity.
Qed.

(** The steps of a caller of [Add]: taking the lock, moving on inside, and
    giving the lock back. *)
Lemma add_step_cases lk w m p lk' w' p' :
  add_step spare lk w m p = Some (lk', w', p') ->
  (p = AtLock /\ writing lk = false /\ reading lk = O /\
   lk' = mkLock true O /\ w' = w /\ p' = AtRange) \/
  (is_writing (Adder m p) = true /\ is_writing (Adder m p') = true /\ lk' = lk /\
   pending spare m p' w' = pending spare m p w /\ (wf w -> wf w')) \/
  (exists b, p = AtUnlock b /\ lk' = mkLock false (reading lk) /\ w' = w /\ p' = AddDone b).
Proof.
  destruct p as [| |i [|n]|i v| |b|b]; simpl.
  - destruct (writing lk); [discriminate|]. destruct (reading lk); [|discriminate].
    intros [= <- <- <-]. left. auto 10.
  - intros [= <- <- <-]. right. left. repeat split; auto. apply pending_range.
  - intros [= <- <- <-]. right. left. repeat split; auto.
  - intros H. right. left.
    destruct (index (heap w) (metrics (store w)) i) as [e|]; [|injection H as <- <- <-; auto].
    destruct (same_key e m); [|injection H as <- <- <-; auto].
    destruct (Type_ m =? GaugeType); [injection H as <- <- <-; auto|].
    destruct (Type_ m =? CounterType); [|injection H as <- <- <-; auto].
    destruct (assert_int64 (Value e)); [|injection H as <- <- <-; auto].
    destruct (assert_int64 (Value m)); injection H as <- <- <-; auto.
  - intros [= <- <- <-]. right. left. repeat split; auto.
    intros Hwf. apply set_Value_ok. exact Hwf.
  - destruct (append spare (heap w) (metrics (store w)) m) as [h sl] eqn:E.
    intros [= <- <- <-]. right. left. repeat split; auto.
    intros Hwf. apply (append_spec spare _ _ _ _ _ Hwf E).
  - intros [= <- <- <-]. right. right. eauto.
  - discriminate.
Qed.

(** A caller of [Add] that runs alone does what [Add] does, panic
    included, and gives the lock back. *)
Lemma add_run_loop lk w m n : forall i,
  exists k,
    add_run spare k lk w m (InLoop i n) =
    (mkLock false (reading lk),
     pending spare m (InLoop i n) w,
     AddDone (match Add_loop w m i n with Some o => panicked o | None => false end)).
Proof.
  induction n as [|n IH]; intros i.
  - exists 3%nat. simpl.
    destruct (append spare (heap w) (metrics (store w)) m) as [h sl]. reflexivity.
  - destruct (IH (S i)) as [k Hk]. simpl.
    destruct (index (heap w) (metrics (store w)) i) as [e|] eqn:Hi;
      [|exists 2%nat; simpl; rewrite Hi; reflexivity].
    destruct (same_key e m) eqn:Hs;
      [|exists (S k); simpl; rewrite Hi, Hs; exact Hk].
    destruct (Type_ m =? GaugeType) eqn:Hg;
      [exists 3%nat; simpl; rewrite Hi, Hs, Hg; reflexivity|].
    destruct (Type_ m =? CounterType) eqn:Hc;
      [|exists 2%nat; simpl; rewrite Hi, Hs, Hg, Hc; reflexivity].
    destruct (assert_int64 (Value e)) as [a|] eqn:Ha;
      [|exists 2%nat; simpl; rewrite Hi, Hs, Hg, Hc, Ha; reflexivity].
    destruct (assert_int64 (Value m)) as [b|] eqn:Hb;
      [exists 3%nat | exists 2%nat]; simpl; rewrite Hi, Hs, Hg, Hc, Ha, Hb; reflexivity.
Qed.

Lemma add_run_alone w m :
  exists k,
    add_run spare k (mkLock false O) w m AtLock =
    (mkLock false O, after (Add spare w m), AddDone (panicked (Add spare w m))).
Proof.
  destruct (add_run_loop (mkLock true O) w m (len (metrics (store w))) O) as [k Hk].
  exists (S (S k)). simpl. rewrite Hk, pending_range. simpl. do 2 f_equal.
  unfold Add. destruct (Add_loop w m 0 (len (metrics (store w)))); [reflexivity|].
  destruct (append spare (heap w) (metrics (store w)) m). reflexivity.
Qed.

(** The steps of a caller of [Get]. *)
Lemma get_step_cases lk w p lk' w' p' :
  get_step lk w p = Some (lk', w', p') ->
  (p = AtRLock /\ writing lk = false /\ lk' = mkLock false (S (reading lk)) /\
   w' = w /\ p' = InCopy) \/
  (p = InCopy /\ lk' = lk /\ w' = snd (Get w) /\ p' = AtRUnlock (fst (Get w))) \/
  (exists s, p = AtRUnlock s /\ lk' = mkLock (writing lk) (Nat.pred (reading lk)) /\
             w' = w /\ p' = GetDone s).
Proof.
  destruct p as [| |s|s]; simpl.
  - destruct (writing lk); [discriminate|]. intros [= <- <- <-]. auto 10.
  - destruct (Get w) as [s w1]. intros [= <- <- <-]. auto 10.
  - intros [= <- <- <-]. right. right. eauto.
  - discriminate.
Qed.

End Callers.

(** A caller other than the one that moves is not inside the write lock. *)
Ltac other_writer Hothers :=
  match goal with
  | Hin : ?x ∈ _ |- _ =>
      let Hf := fresh in
      assert (Hf : is_writing x = false) by (apply Hothers; [auto | lia]);
      simpl in Hf; congruence
  end.

Section Linearization.

Variable spare : nat -> nat.

Lemma lock_inv_start w ts :
  wf w -> started ts = [] -> writers ts = O -> readers ts = O ->
  lock_inv spare (contents w) (omap job ts) (start w ts).
Proof.
  intros Hwf Hst Hw Hr. unfold lock_inv, start. simpl. repeat split; auto.
  exists []. rewrite Hst. repeat split; auto.
  intros m p Hin Hp. pose proof (writers_none _ _ Hw Hin) as Hf.
  simpl in Hf. congruence.
Qed.

Lemma lock_inv_step l0 js c c' :
  lock_inv spare l0 js c -> sched spare c c' -> lock_inv spare l0 js c'.
Proof.
  intros (Hwf & Hjobs & Hrd & Hwr & Hex & ms & Hperm & Hfree & Hpend) Hs.
  destruct Hs as [lk w ts1 t ts2 lk' w' t' Hstep]. unfold lock_inv. simpl in *.
  rewrite writers_middle in Hwr. rewrite readers_middle in Hrd.
  rewrite jobs_middle in Hjobs. rewrite started_middle in Hperm.
  rewrite writers_middle, readers_middle, jobs_middle, started_middle.
  assert (Hothers : forall x, x ∈ ts1 \/ x ∈ ts2 ->
            (writers ts1 + writers ts2 = 0)%nat -> is_writing x = false).
  { intros x [Hx|Hx] H0; eapply writers_none; try eassumption; lia. }
  destruct t as [m p|p]; simpl in Hstep.
  - destruct (add_step spare lk w m p) as [[[lk1 w1] p1]|] eqn:E; [|discriminate].
    injection Hstep as <- <- <-.
    destruct (add_step_cases spare _ _ _ _ _ _ _ E)
      as [(-> & Hw & Hr & -> & -> & ->) |
          [(Hp & Hp' & -> & Hpe & Hwf') | (b & -> & -> & -> & ->)]].
    + (* the caller takes the lock *)
      rewrite Hw in *. simpl in *. repeat split; auto; try lia.
      exists (ms ++ [m]). repeat split.
      * transitivity (m :: ms); [symmetry; apply Permutation_cons_append|].
        rewrite Hperm. apply Permutation_middle.
      * discriminate.
      * intros m0 p0 Hin Hp0.
        rewrite elem_of_app, elem_of_cons in Hin.
        destruct Hin as [Hin | [Heq | Hin]];
          try (other_writer Hothers).
        injection Heq as -> ->. unfold pending.
        rewrite Add_contents, upserts_snoc, <- Hfree by auto. reflexivity.
    + (* the caller moves on inside *)
      rewrite Hp in Hwr. rewrite Hp'. destruct (writing lk) eqn:Hw; [|lia].
      repeat split; auto.
      exists ms. repeat split.
      * rewrite Hperm. destruct p, p1; try discriminate; reflexivity.
      * discriminate.
      * intros m0 p0 Hin Hp0.
        rewrite elem_of_app, elem_of_cons in Hin.
        destruct Hin as [Hin | [Heq | Hin]];
          try (other_writer Hothers).
        injection Heq as -> ->. rewrite Hpe. apply Hpend; [|assumption].
        apply elem_of_app. right. apply list_elem_of_here.
    + (* the caller gives the lock back *)
      simpl in *. destruct (writing lk) eqn:Hw; [|lia].
      repeat split; auto; try lia.
      exists ms. repeat split.
      * exact Hperm.
      * intros _. apply (Hpend m (AtUnlock b)); [|reflexivity].
        apply elem_of_app. right. apply list_elem_of_here.
      * intros m0 p0 Hin Hp0.
        rewrite elem_of_app, elem_of_cons in Hin.
        destruct Hin as [Hin | [Heq | Hin]];
          try (other_writer Hothers).
        injection Heq as -> ->. discriminate.
  - destruct (get_step lk w p) as [[[lk1 w1] p1]|] eqn:E; [|discriminate].
    injection Hstep as <- <- <-.
    assert (Hfree' : is_reading (Getter p) = true -> writing lk = false).
    { intros Hp. destruct (writing lk); [|reflexivity].
      rewrite Hp in Hrd. specialize (Hex eq_refl). lia. }
    destruct (get_step_cases _ _ _ _ _ _ E)
      as [(-> & Hw & -> & -> & ->) |
          [(-> & -> & Hw1 & Hp1) | (s & -> & -> & -> & ->)]];
      [|destruct (Get w) as [s wg] eqn:HG; simpl in Hw1, Hp1; subst w1 p1;
        destruct (Get_spec w s wg Hwf HG) as (_ & Hwfg & Hcg & _)|]; simpl in *.
    + rewrite Hw in *. repeat split; auto; try lia; try discriminate.
      exists ms. repeat split; auto.
      intros m0 p0 Hin Hp0.
      rewrite elem_of_app, elem_of_cons in Hin.
      destruct Hin as [Hin | [Heq | Hin]];
        try (other_writer Hothers).
      discriminate.
    + rewrite (Hfree' eq_refl) in *. repeat split; auto; try discriminate.
      * exists ms. repeat split; auto.
        -- intros _. rewrite Hcg. auto.
        -- intros m0 p0 Hin Hp0.
           rewrite elem_of_app, elem_of_cons in Hin.
           destruct Hin as [Hin | [Heq | Hin]];
             try (other_writer Hothers).
           discriminate.
    + rewrite (Hfree' eq_refl) in *. repeat split; auto; try lia; try discriminate.
      exists ms. repeat split; auto.
      intros m0 p0 Hin Hp0.
      rewrite elem_of_app, elem_of_cons in Hin.
      destruct Hin as [Hin | [Heq | Hin]];
        try (other_writer Hothers).
      discriminate.
Qed.

Lemma lock_inv_steps l0 js c c' :
  lock_inv spare l0 js c -> rtc (sched spare) c c' -> lock_inv spare l0 js c'.
Proof. intros Hinv Hs. induction Hs; eauto using lock_inv_step. Qed.

(** When every caller is done the entries are those of the sequential run
    of the callers' updates in some order. *)
Lemma lock_inv_done l0 js c :
  lock_inv spare l0 js c -> all_done c ->
  exists ms, ms ≡ₚ js /\ contents (mem c) = upserts l0 ms.
Proof.
  intros (Hwf & Hjobs & Hrd & Hwr & Hex & ms & Hperm & Hfree & Hpend) Hd.
  unfold all_done in Hd. rewrite (writers_done _ Hd) in Hwr.
  rewrite (started_done _ Hd), Hjobs in Hperm.
  exists ms. split; [assumption|]. apply Hfree.
  destruct (writing (lock c)); [discriminate | reflexivity].
Qed.

End Linearization.

(** ** Increments of one counter *)

Lemma upsert_increment l n x :
  (n, CounterType) ∉ key <$> l ->
  upsert (l ++ [mkMetric n CounterType (Int64 (wrap64 x))]) (mkMetric n CounterType (Int64 1)) =
  Some (l ++ [mkMetric n CounterType (Int64 (wrap64 (x + 1)))]).
Proof.
  intros Hn.
  rewrite (upsert_present l (mkMetric n CounterType (Int64 (wrap64 x))) []
             (mkMetric n CounterType (Int64 1)) Hn eq_refl).
  rewrite (merged_counter (mkMetric n CounterType (Int64 (wrap64 x)))
             (mkMetric n CounterType (Int64 1)) (wrap64 x) 1 eq_refl eq_refl eq_refl).
  simpl. unfold add64. rewrite wrap64_add_l. reflexivity.
Qed.

Lemma upserts_cons l m ms :
  upserts l (m :: ms) = upserts (default l (upsert l m)) ms.
Proof. reflexivity. Qed.

Lemma upserts_increments l n x k :
  (n, CounterType) ∉ key <$> l ->
  upserts (l ++ [mkMetric n CounterType (Int64 (wrap64 x))])
          (replicate k (mkMetric n CounterType (Int64 1))) =
  l ++ [mkMetric n CounterType (Int64 (wrap64 (x + Z.of_nat k)))].
Proof.
  intros Hn. revert x. induction k as [|k IH]; intros x.
  - simpl. rewrite Z.add_0_r. reflexivity.
  - change (replicate (S k) (mkMetric n CounterType (Int64 1)))
      with (mkMetric n CounterType (Int64 1) :: replicate k (mkMetric n CounterType (Int64 1))).
    rewrite upserts_cons, upsert_increment by assumption. simpl default.
    replace (x + Z.of_nat (S k)) with (x + 1 + Z.of_nat k) by lia. apply IH.
Qed.

Lemma upserts_increments_new l n k :
  (n, CounterType) ∉ key <$> l ->
  upserts l (replicate (S k) (mkMetric n CounterType (Int64 1))) =
  l ++ [mkMetric n CounterType (Int64 (wrap64 (Z.of_nat (S k))))].
Proof.
  intros Hn.
  change (replicate (S k) (mkMetric n CounterType (Int64 1)))
    with (mkMetric n CounterType (Int64 1) :: replicate k (mkMetric n CounterType (Int64 1))).
  rewrite upserts_cons, (upsert_absent l (mkMetric n CounterType (Int64 1)) Hn). simpl default.
  change (Int64 1) with (Int64 (wrap64 1)) at 1.
  replace (Z.of_nat (S k)) with (1 + Z.of_nat k) by lia.
  apply upserts_increments. assumption.
Qed.

(** ** Progress and termination of the callers *)

Lemma appenders_middle ts1 t ts2 :
  appenders (ts1 ++ t :: ts2) =
  (appenders ts1 + (if may_append t then 1 else 0) + appenders ts2)%nat.
Proof.
  unfold appenders. rewrite filter_app, length_app.
  destruct (may_append t) eqn:E.
  - rewrite filter_cons_True by assumption. simpl. lia.
  - rewrite filter_cons_False by congruence. lia.
Qed.

Lemma fuel_middle b ts1 t ts2 :
  fuel b (ts1 ++ t :: ts2) = (fuel b ts1 + weight b t + fuel b ts2)%nat.
Proof. unfold fuel. rewrite sum_list_with_app. simpl. lia. Qed.

Section Progress.

Variable spare : nat -> nat.

Lemma writer_enabled lk w t :
  is_writing t = true -> is_Some (thread_step spare lk w t).
Proof.
  destruct t as [m p|p]; [|discriminate]. intros Hp. simpl.
  destruct p as [| |i [|n]|i v| |b|b]; try discriminate; simpl; eauto.
  - destruct (index (heap w) (metrics (store w)) i) as [e|]; [|eauto].
    destruct (same_key e m); [|eauto].
    destruct (Type_ m =? GaugeType); [eauto|].
    destruct (Type_ m =? CounterType); [|eauto].
    destruct (assert_int64 (Value e)); [|eauto].
    destruct (assert_int64 (Value m)); eauto.
  - destruct (append spare (heap w) (metrics (store w)) m). eauto.
Qed.

Lemma reader_enabled lk w t :
  is_reading t = true -> is_Some (thread_step spare lk w t).
Proof.
  destruct t as [m p|p]; [discriminate|]. intros Hp. simpl.
  destruct p as [| |s|s]; try discriminate; simpl; eauto.
Qed.

Lemma free_enabled lk w t :
  writing lk = false -> reading lk = O -> is_done t = false ->
  is_Some (thread_step spare lk w t).
Proof.
  intros Hw Hr Hd. destruct (is_writing t) eqn:Hwt; [apply writer_enabled; assumption|].
  destruct (is_reading t) eqn:Hrt; [apply reader_enabled; assumption|].
  destruct t as [m []|[]]; try discriminate; simpl; rewrite Hw, ?Hr; eauto.
Qed.

Lemma enabled_sched lk w ts1 t ts2 :
  is_Some (thread_step spare lk w t) ->
  exists c', sched spare (Config lk w (ts1 ++ t :: ts2)) c'.
Proof.
  intros [[[lk' w'] t'] H]. eexists. apply sched_thread. eassumption.
Qed.

(** No deadlock: while a caller is not done, some caller can move. *)
Lemma lock_inv_progress l0 js c :
  lock_inv spare l0 js c -> ~ all_done c -> exists c', sched spare c c'.
Proof.
  intros (Hwf & Hjobs & Hrd & Hwr & Hex & _) Hnd. destruct c as [lk w ts]. simpl in *.
  destruct (writing lk) eqn:Hw.
  - destruct (writers_some ts) as (ts1 & t & ts2 & -> & Ht); [lia|].
    apply enabled_sched, writer_enabled. assumption.
  - destruct (reading lk) as [|r] eqn:Hr.
    + unfold all_done in Hnd. simpl in Hnd. apply not_Forall_Exists in Hnd; [|intros x; apply _].
      apply Exists_exists in Hnd. destruct Hnd as (t & Hin & Ht).
      apply list_elem_of_split in Hin. destruct Hin as (ts1 & ts2 & ->).
      apply enabled_sched, free_enabled; try assumption.
      unfold compose in Ht. destruct (is_done t); congruence.
    + destruct (readers_some ts) as (ts1 & t & ts2 & -> & Ht); [lia|].
      apply enabled_sched, reader_enabled. assumption.
Qed.

(** Every step uses up fuel, and the store keeps room for the callers that
    may still append. *)
Lemma room_step b c c' :
  room b c -> sched spare c c' ->
  room b c' /\ (fuel b (threads c') < fuel b (threads c))%nat.
Proof.
  unfold room. intros Hroom Hs.
  destruct Hs as [lk w ts1 t ts2 lk' w' t' Hstep]. simpl in *.
  rewrite appenders_middle in Hroom. rewrite appenders_middle, !fuel_middle.
  cut ((len (metrics (store w')) + (if may_append t' then 1 else 0)
        <= len (metrics (store w)) + (if may_append t then 1 else 0))%nat /\
       (weight b t' < weight b t)%nat); [lia|].
  destruct t as [m p|p]; simpl in Hstep.
  - destruct (add_step spare lk w m p) as [[[lk1 w1] p1]|] eqn:E; [|discriminate].
    injection Hstep as <- <- <-.
    destruct p as [| |i [|n]|i v| |x|x]; simpl in E.
    + destruct (writing lk); [discriminate|]. destruct (reading lk); [|discriminate].
      injection E as <- <- <-. simpl. lia.
    + injection E as <- <- <-. simpl in *. lia.
    + injection E as <- <- <-. simpl. lia.
    + destruct (index (heap w) (metrics (store w)) i) as [e|];
        [|injection E as <- <- <-; simpl; lia].
      destruct (same_key e m); [|injection E as <- <- <-; simpl; lia].
      destruct (Type_ m =? GaugeType); [injection E as <- <- <-; simpl; lia|].
      destruct (Type_ m =? CounterType); [|injection E as <- <- <-; simpl; lia].
      destruct (assert_int64 (Value e)); [|injection E as <- <- <-; simpl; lia].
      destruct (assert_int64 (Value m)); injection E as <- <- <-; simpl; lia.
    + injection E as <- <- <-. simpl. lia.
    + pose proof (append_len spare (heap w) (metrics (store w)) m) as Hlen.
      destruct (append spare (heap w) (metrics (store w)) m) as [h sl].
      injection E as <- <- <-. simpl in *. lia.
    + injection E as <- <- <-. simpl. lia.
    + discriminate.
  - destruct (get_step lk w p) as [[[lk1 w1] p1]|] eqn:E; [|discriminate].
    injection Hstep as <- <- <-.
    destruct p as [| |s|s]; simpl in E.
    + destruct (writing lk); [discriminate|]. injection E as <- <- <-. simpl. lia.
    + unfold Get, make in E. injection E as <- <- <-. simpl. lia.
    + injection E as <- <- <-. simpl. lia.
    + discriminate.
Qed.

Lemma fuel_bound b k c c' :
  room b c -> nsteps (sched spare) k c c' ->
  (k + fuel b (threads c') <= fuel b (threads c))%nat.
Proof.
  intros Hroom Hs. induction Hs as [|k c c1 c' Hs1 Hs IH]; [lia|].
  destruct (room_step b c c1 Hroom Hs1) as [Hroom1 Hlt].
  specialize (IH Hroom1). lia.
Qed.

(** Every caller gets done: from a state that meets the invariant some
    schedule leads to a state in which all callers are done. *)
Lemma lock_inv_finish l0 js b c :
  lock_inv spare l0 js c -> room b c ->
  exists c', rtc (sched spare) c c' /\ all_done c'.
Proof.
  remember (fuel b (threads c)) as f eqn:Hf. revert c Hf.
  induction f as [f IH] using lt_wf_ind. intros c -> Hinv Hroom.
  destruct (decide (all_done c)) as [Hd|Hnd].
  - exists c. split; [apply rtc_refl | assumption].
  - destruct (lock_inv_progress _ _ _ Hinv Hnd) as [c1 Hs].
    destruct (room_step b c c1 Hroom Hs) as [Hroom1 Hlt].
    destruct (IH _ Hlt c1 eq_refl (lock_inv_step spare _ _ _ _ Hinv Hs) Hroom1)
      as (c' & Hs' & Hd).
    exists c'. split; [eapply rtc_l; eassumption | assumption].
Qed.

Lemma sched_at_sched c k c' : sched_at spare c k = Some c' -> sched spare c c'.
Proof.
  unfold sched_at. destruct c as [lk w ts]. simpl.
  destruct (ts !! k) as [t|] eqn:Hk; [|discriminate].
  destruct (thread_step spare lk w t) as [[[lk' w'] t']|] eqn:E; [|discriminate].
  intros [= <-].
  rewrite <- (take_drop_middle ts k t Hk) at 1.
  rewrite (insert_take_drop ts k t') by (eapply lookup_lt_Some; eassumption).
  apply sched_thread. assumption.
Qed.

Lemma sched_along_rtc ks : forall c c',
  sched_along spare c ks = Some c' -> rtc (sched spare) c c'.
Proof.
  induction ks as [|k ks IH]; intros c c'; simpl.
  - intros [= <-]. apply rtc_refl.
  - destruct (sched_at spare c k) as [c1|] eqn:E; [|discriminate].
    intros H. eapply rtc_l; [eapply sched_at_sched; eassumption | apply IH; assumption].
Qed.

End Progress.

(** ** [N] callers of [Add] and [G] callers of [Get], none started *)

Lemma crowd_started m N G :
  started (replicate N (Adder m AtLock) ++ replicate G (Getter AtRLock)) = [].
Proof.
  unfold started. rewrite omap_app.
  induction N as [|N IH]; simpl; [|exact IH].
  induction G as [|G IH]; simpl; [reflexivity | exact IH].
Qed.

Lemma crowd_jobs m N G :
  omap job (replicate N (Adder m AtLock) ++ replicate G (Getter AtRLock)) = replicate N m.
Proof.
  rewrite omap_app.
  assert (omap job (replicate G (Getter AtRLock)) = []) as ->
    by (induction G as [|G IH]; simpl; [reflexivity | exact IH]).
  rewrite app_nil_r. induction N as [|N IH]; simpl; [reflexivity|]. f_equal. exact IH.
Qed.

Lemma crowd_writers m N G :
  writers (replicate N (Adder m AtLock) ++ replicate G (Getter AtRLock)) = O.
Proof.
  unfold writers. rewrite filter_app, length_app.
  assert (forall ts, Forall (fun t => is_writing t = false) ts ->
            filter (fun t => is_writing t = true) ts = []) as Hnone.
  { induction 1 as [|t ts Ht _ IH]; [reflexivity|].
    rewrite filter_cons_False by congruence. exact IH. }
  rewrite !Hnone; [reflexivity | |]; apply Forall_replicate; reflexivity.
Qed.

Lemma crowd_readers m N G :
  readers (replicate N (Adder m AtLock) ++ replicate G (Getter AtRLock)) = O.
Proof.
  unfold readers. rewrite filter_app, length_app.
  assert (forall ts, Forall (fun t => is_reading t = false) ts ->
            filter (fun t => is_reading t = true) ts = []) as Hnone.
  { induction 1 as [|t ts Ht _ IH]; [reflexivity|].
    rewrite filter_cons_False by congruence. exact IH. }
  rewrite !Hnone; [reflexivity | |]; apply Forall_replicate; reflexivity.
Qed.

Lemma crowd_appenders m N G :
  appenders (replicate N (Adder m AtLock) ++ replicate G (Getter AtRLock)) = N.
Proof.
  unfold appenders. rewrite filter_app, length_app.
  assert (filter (fun t => may_append t = true) (replicate G (Getter AtRLock)) = []) as ->.
  { induction G as [|G IH]; [reflexivity|]. simpl replicate.
    rewrite filter_cons_False by discriminate. exact IH. }
  simpl. rewrite Nat.add_0_r.
  induction N as [|N IH]; [reflexivity|]. simpl replicate.
  rewrite filter_cons_True by reflexivity. simpl. f_equal. exact IH.
Qed.

Lemma crowd_fuel b m N G :
  fuel b (replicate N (Adder m AtLock) ++ replicate G (Getter AtRLock)) =
  (N * (b + 6) + 3 * G)%nat.
Proof.
  unfold fuel. rewrite sum_list_with_app.
  assert (sum_list_with (weight b) (replicate G (Getter AtRLock)) = (3 * G)%nat) as ->
    by (induction G as [|G IH]; simpl in *; lia).
  assert (sum_list_with (weight b) (replicate N (Adder m AtLock)) = (N * (b + 6))%nat) as ->
    by (induction N as [|N IH]; simpl in *; lia).
  reflexivity.
Qed.

(** ** The model at work *)

(** A counter update that carries a [float64] meets a stored [int64]: the
    type assertion panics and the store stays as it was. *)
Example Add_mistyped_counter_panics :
  let w := run doubling NewMemStorage [CallAdd (mkMetric "x" CounterType (Int64 1))] in
  Add doubling w (mkMetric "x" CounterType (Float64 2)) = Panicked w.
Proof. vm_compute. reflexivity. Qed.

(** Aliasing is real in the model: a caller that kept the store's own slice
    header instead of the copy [Get] makes would see a later [Add]. *)
Example own_header_sees_Add :
  let w := run doubling NewMemStorage [CallAdd (mkMetric "x" CounterType (Int64 1))] in
  let s := metrics (store w) in
  let w' := after (Add doubling w (mkMetric "x" CounterType (Int64 2))) in
  view w s = [mkMetric "x" CounterType (Int64 1)] /\
  view w' s = [mkMetric "x" CounterType (Int64 3)].
Proof. split; vm_compute; reflexivity. Qed.

(** An [append] within the capacity writes into the array the store already
    has; one beyond it moves the store to a new array. *)
Example append_in_place_and_grow :
  let a := mkMetric "a" GaugeType (Float64 1) in
  let b := mkMetric "b" GaugeType (Float64 2) in
  let c := mkMetric "c" GaugeType (Float64 3) in
  let d := mkMetric "d" GaugeType (Float64 4) in
  metrics (store (run doubling NewMemStorage [CallAdd a])) = Slice (Some 1%positive) 1 1 /\
  metrics (store (run doubling NewMemStorage [CallAdd a; CallAdd b])) = Slice (Some 2%positive) 2 3 /\
  metrics (store (run doubling NewMemStorage [CallAdd a; CallAdd b; CallAdd c]))
    = Slice (Some 2%positive) 3 3 /\
  metrics (store (run doubling NewMemStorage [CallAdd a; CallAdd b; CallAdd c; CallAdd d]))
    = Slice (Some 3%positive) 4 7.
Proof. repeat split; vm_compute; reflexivity. Qed.

Example first_occurrences_example :
  first_occurrences [] [("a", 0); ("b", 1); ("a", 0); ("a", 1); ("b", 1)] =
  [("a", 0); ("b", 1); ("a", 1)].
Proof. vm_compute. reflexivity. Qed.

(** A caller that has not taken the lock cannot move while another holds
    it, and a writer cannot come in while a reader is inside. *)
Example lock_blocks :
  let m := mkMetric "x" CounterType (Int64 1) in
  sched_along doubling (start NewMemStorage [Adder m AtLock; Adder m AtLock]) [0; 1]%nat = None /\
  sched_along doubling (start NewMemStorage [Adder m AtLock; Getter AtRLock]) [1; 0]%nat = None /\
  sched_along doubling (start NewMemStorage [Adder m AtLock; Getter AtRLock]) [0; 1]%nat = None.
Proof. repeat split; vm_compute; reflexivity. Qed.

(** * The claims *)

(** C1 (amended).  In every state the store can reach, if it holds an entry
    [(n, Counter)] with the [int64] value [v], then [Add] of
    [(n, Counter, d)] returns and leaves exactly one entry [(n, Counter)],
    whose value is [v + d] wrapped around to the signed 64-bit range; that is
    [v + d] itself whenever the sum fits in an [int64].  When every metric
    added so far met the caller contract, [v] is the wrapped sum of all the
    values added under that key: nothing resets or overwrites it. *)
Theorem C1_counter_accumulates (spare : nat -> nat) (cs : list call) (n : string) (v d : Z) :
  mkMetric n CounterType (Int64 v) ∈ contents (run spare NewMemStorage cs) ->
  let w := run spare NewMemStorage cs in
  let w' := after (Add spare w (mkMetric n CounterType (Int64 d))) in
  Add spare w (mkMetric n CounterType (Int64 d)) = Return w' /\
  with_key (n, CounterType) (contents w') = [mkMetric n CounterType (Int64 (add64 v d))] /\
  length (contents w') = length (contents w) /\
  in_int64 (add64 v d) /\
  (in_int64 (v + d) -> add64 v d = v + d) /\
  (Forall well_typed (added cs) -> v = wrap64 (total (n, CounterType) (added cs))).
Proof.
  intros Hin w w'. subst w'.
  destruct (Add_existing spare w (mkMetric n CounterType (Int64 d))
              (mkMetric n CounterType (Int64 v)) (mkMetric n CounterType (Int64 (add64 v d))))
    as (HR & Hw & Hlen); try reflexivity; try assumption.
  - apply reachable_wf.
  - apply reachable_unique.
  - repeat split; try assumption.
    + apply wrap64_range.
    + apply wrap64_range.
    + apply add64_exact.
    + intros Hty.
      pose proof (run_counter_total spare cs Hty _ Hin eq_refl) as Hv.
      change (Int64 v = Int64 (wrap64 (total (n, CounterType) (added cs)))) in Hv.
      congruence.
Qed.

Lemma C1_counter_accumulates_witness :
  with_key ("x", CounterType)
    (contents (after (Add doubling
       (run doubling NewMemStorage [CallAdd (mkMetric "x" CounterType (Int64 1))])
       (mkMetric "x" CounterType (Int64 2)))))
  = [mkMetric "x" CounterType (Int64 3)].
Proof.
  refine (proj1 (proj2 (C1_counter_accumulates doubling
            [CallAdd (mkMetric "x" CounterType (Int64 1))] "x" 1 2 _))).
  vm_compute. apply list_elem_of_here.
Defined.

(** C1 as stated fails where the sum leaves the [int64] range: the store
    holds the largest [int64] under a counter, [1] is added, and the entry
    now holds the smallest [int64], not the sum. *)
Lemma C1_counterexample :
  let w := run doubling NewMemStorage [CallAdd (mkMetric "x" CounterType (Int64 max_int64))] in
  let w' := after (Add doubling w (mkMetric "x" CounterType (Int64 1))) in
  mkMetric "x" CounterType (Int64 max_int64) ∈ contents w /\
  in_int64 max_int64 /\ in_int64 1 /\
  with_key ("x", CounterType) (contents w') = [mkMetric "x" CounterType (Int64 min_int64)] /\
  Int64 min_int64 <> Int64 (max_int64 + 1).
Proof.
  repeat split; try (vm_compute; congruence).
  - vm_compute. apply list_elem_of_here.
Qed.

(** C2.  In every state the store can reach, if it holds an entry
    [(n, Gauge)], then [Add] of [(n, Gauge, v)] returns and leaves exactly
    one entry [(n, Gauge)], whose value is [v], the value just added. *)
Theorem C2_gauge_last_write_wins (spare : nat -> nat) (cs : list call) (n : string) (x v : iface) :
  mkMetric n GaugeType x ∈ contents (run spare NewMemStorage cs) ->
  let w := run spare NewMemStorage cs in
  let w' := after (Add spare w (mkMetric n GaugeType v)) in
  Add spare w (mkMetric n GaugeType v) = Return w' /\
  with_key (n, GaugeType) (contents w') = [mkMetric n GaugeType v] /\
  length (contents w') = length (contents w).
Proof.
  intros Hin w w'. subst w'.
  apply (Add_existing spare w (mkMetric n GaugeType v) (mkMetric n GaugeType x));
    try reflexivity; try assumption.
  - apply reachable_wf.
  - apply reachable_unique.
Qed.

Lemma C2_gauge_last_write_wins_witness :
  with_key ("x", GaugeType)
    (contents (after (Add doubling
       (run doubling NewMemStorage [CallAdd (mkMetric "x" GaugeType (Float64 1))])
       (mkMetric "x" GaugeType (Float64 2)))))
  = [mkMetric "x" GaugeType (Float64 2)].
Proof.
  refine (proj1 (proj2 (C2_gauge_last_write_wins doubling
            [CallAdd (mkMetric "x" GaugeType (Float64 1))] "x" (Float64 1) (Float64 2) _))).
  vm_compute. apply list_elem_of_here.
Defined.

(** C3.  [N] callers of [Add] with the metric [(n, Counter, 1)] run
    concurrently, with any number of callers of [Get], on a state the store
    can reach, and take their steps in any order the lock allows.  When the
    state holds no entry [(n, Counter)] and [N] is between 1 and the largest
    [int64], then whenever all callers are done the store holds the entries
    it had and one entry [(n, Counter)] with the value [N].  At no time is
    more than one caller between the [Lock] and the [Unlock] of [Add], and
    none is while a caller of [Get] holds the read lock.  No schedule
    deadlocks, no schedule takes more than a fixed number of steps, and some
    schedule gets every caller done. *)
Theorem C3_no_lost_update (spare : nat -> nat) (cs : list call) (N G : nat) (n : string) :
  let w0 := run spare NewMemStorage cs in
  let m := mkMetric n CounterType (Int64 1) in
  let c0 := start w0 (replicate N (Adder m AtLock) ++ replicate G (Getter AtRLock)) in
  let b := (length (contents w0) + N)%nat in
  ((n, CounterType) ∉ key <$> contents w0 ->
   (1 <= N)%nat ->
   Z.of_nat N <= max_int64 ->
   forall c, rtc (sched spare) c0 c -> all_done c ->
     contents (mem c) = contents w0 ++ [mkMetric n CounterType (Int64 (Z.of_nat N))] /\
     with_key (n, CounterType) (contents (mem c)) =
       [mkMetric n CounterType (Int64 (Z.of_nat N))]) /\
  (forall c, rtc (sched spare) c0 c ->
     (writers (threads c) <= 1)%nat /\
     (writers (threads c) = 1%nat -> readers (threads c) = O)) /\
  (forall c, rtc (sched spare) c0 c -> ~ all_done c -> exists c', sched spare c c') /\
  (forall k c, nsteps (sched spare) k c0 c -> (k <= N * (b + 6) + 3 * G)%nat) /\
  (exists c, rtc (sched spare) c0 c /\ all_done c).
Proof.
  intros w0 m c0 b.
  assert (Hwf : wf w0) by apply reachable_wf.
  assert (Hinv : lock_inv spare (contents w0) (replicate N m) c0).
  { rewrite <- (crowd_jobs m N G). apply lock_inv_start;
      auto using crowd_started, crowd_writers, crowd_readers. }
  assert (Hroom : room b c0).
  { unfold room, c0, start. simpl. rewrite crowd_appenders.
    fold (contents w0). unfold b, contents.
    rewrite elems_length by exact Hwf. lia. }
  split; [|split; [|repeat split]].
  - intros Hn HN1 HNmax c Hs Hd.
    destruct (lock_inv_done spare _ _ c (lock_inv_steps spare _ _ _ _ Hinv Hs) Hd)
      as (ms & Hperm & ->).
    symmetry in Hperm. apply replicate_Permutation in Hperm. subst ms.
    destruct N as [|N']; [lia|]. unfold m. rewrite upserts_increments_new by exact Hn.
    rewrite wrap64_id by (unfold in_int64, min_int64, max_int64 in *; lia).
    split; [reflexivity|].
    rewrite with_key_app, (with_key_absent _ _ Hn).
    unfold with_key. rewrite filter_cons_True by reflexivity. reflexivity.
  - intros c Hs.
    destruct (lock_inv_steps spare _ _ _ _ Hinv Hs) as (_ & _ & Hrd & Hwr & Hex & _).
    rewrite Hwr, <- Hrd. destruct (writing (lock c)); [split; auto | split; [lia | discriminate]].
  - intros c Hs Hnd. eapply lock_inv_progress; [|exact Hnd].
    eapply lock_inv_steps; eassumption.
  - intros k c Hs. pose proof (fuel_bound spare b k c0 c Hroom Hs) as Hb.
    unfold c0, start in Hb. simpl in Hb. rewrite crowd_fuel in Hb. lia.
  - eapply lock_inv_finish; eassumption.
Qed.

Lemma C3_no_lost_update_witness :
  match sched_along doubling
          (start NewMemStorage
             (replicate 2 (Adder (mkMetric "x" CounterType (Int64 1)) AtLock)
              ++ replicate 1 (Getter AtRLock)))
          [1; 1; 1; 1; 1; 2; 2; 2; 0; 0; 0; 0; 0]%nat with
  | Some c => contents (mem c) = [mkMetric "x" CounterType (Int64 2)]
  | None => False
  end.
Proof.
  assert (H1 : ("x", CounterType) ∉ key <$> contents (run doubling NewMemStorage []))
    by (vm_compute; apply not_elem_of_nil).
  assert (H2 : (1 <= 2)%nat) by lia.
  assert (H3 : Z.of_nat 2 <= max_int64) by (unfold max_int64; lia).
  pose proof (proj1 (C3_no_lost_update doubling [] 2 1 "x") H1 H2 H3) as Hfinal.
  destruct (sched_along doubling _ _) as [c|] eqn:E.
  - apply Hfinal; [eapply sched_along_rtc; exact E|].
    vm_compute in E. injection E as <-. repeat constructor.
  - vm_compute in E. discriminate.
Defined.

(** C4.  After every finite sequence of calls on a new store the keys of the
    entries are pairwise distinct, so no key has more than one entry, and
    after one more [Add] the key of the added metric has exactly one. *)
Theorem C4_one_entry_per_key (spare : nat -> nat) (cs : list call) (m : Metric) :
  let w := run spare NewMemStorage cs in
  let w' := after (Add spare w m) in
  unique_keys (contents w) /\
  (forall k, (length (with_key k (contents w)) <= 1)%nat) /\
  unique_keys (contents w') /\
  length (with_key (key m) (contents w')) = 1%nat.
Proof.
  intros w w'. subst w'.
  assert (Hwf : wf w) by apply reachable_wf.
  assert (Hu : unique_keys (contents w)) by apply reachable_unique.
  repeat split.
  - assumption.
  - intros k. apply with_key_at_most_one. assumption.
  - apply Add_unique; assumption.
  - destruct (Add_with_key_one spare w m Hwf Hu) as [e ->]. reflexivity.
Qed.

(** C5 (amended).  A gauge and a counter of one name never merge: in every
    state the store can reach, an [Add] under [(n, Gauge)] leaves the entries
    under [(n, Counter)] as they were, and the other way round.  When the
    state holds no entry [(n, Counter)], [Add] of [(n, Gauge, v)] and [Add]
    of [(n, Counter, c)], in either order, leave exactly one entry
    [(n, Gauge)] with value [v] and exactly one entry [(n, Counter)] with
    value [c]. *)
Theorem C5_kind_independence (spare : nat -> nat) (cs : list call) (n : string) (v c : iface) :
  let w := run spare NewMemStorage cs in
  let g := mkMetric n GaugeType v in
  let k := mkMetric n CounterType c in
  let gk := after (Add spare (after (Add spare w g)) k) in
  let kg := after (Add spare (after (Add spare w k)) g) in
  ((n, CounterType) ∉ key <$> contents w ->
   (with_key (n, GaugeType) (contents gk) = [g] /\
    with_key (n, CounterType) (contents gk) = [k]) /\
   (with_key (n, GaugeType) (contents kg) = [g] /\
    with_key (n, CounterType) (contents kg) = [k])) /\
  with_key (n, CounterType) (contents (after (Add spare w g)))
    = with_key (n, CounterType) (contents w) /\
  with_key (n, GaugeType) (contents (after (Add spare w k)))
    = with_key (n, GaugeType) (contents w).
Proof.
  intros w g k gk kg. subst gk kg.
  assert (Hwf : wf w) by apply reachable_wf.
  assert (Hu : unique_keys (contents w)) by apply reachable_unique.
  assert (Hne : (n, CounterType) <> (n, GaugeType)) by (unfold CounterType, GaugeType; congruence).
  pose proof (Add_wf spare w g Hwf) as Hwfg.
  pose proof (Add_wf spare w k Hwf) as Hwfk.
  pose proof (Add_unique spare w g Hwf Hu) as Hug.
  pose proof (Add_unique spare w k Hwf Hu) as Huk.
  split; [intros Hn; repeat split | split].
  - rewrite Add_with_key_other by (try assumption; apply not_eq_sym, Hne).
    apply (Add_gauge_with_key spare w g); auto.
  - apply (Add_new_with_key spare (after (Add spare w g)) k); try assumption.
    rewrite Add_keys_elem by assumption. intros [H|H]; [exact (Hn H) | exact (Hne H)].
  - apply (Add_gauge_with_key spare (after (Add spare w k)) g); auto.
  - rewrite Add_with_key_other by (try assumption; exact Hne).
    apply (Add_new_with_key spare w k); assumption.
  - apply Add_with_key_other; [assumption | exact Hne].
  - apply Add_with_key_other; [assumption | apply not_eq_sym, Hne].
Qed.

Lemma C5_kind_independence_witness :
  let gk := run doubling NewMemStorage
              [CallAdd (mkMetric "x" GaugeType (Float64 1));
               CallAdd (mkMetric "x" CounterType (Int64 5))] in
  with_key ("x", GaugeType) (contents gk) = [mkMetric "x" GaugeType (Float64 1)] /\
  with_key ("x", CounterType) (contents gk) = [mkMetric "x" CounterType (Int64 5)].
Proof.
  refine (proj1 (proj1 (C5_kind_independence doubling [] "x" (Float64 1) (Int64 5)) _)).
  vm_compute. apply not_elem_of_nil.
Defined.

(** C5 as stated fails in a store that already counts under the name: the
    counter holds [1], the gauge and then the counter [5] are added, and the
    counter entry holds [6], not [5]. *)
Lemma C5_counterexample :
  let w := run doubling NewMemStorage [CallAdd (mkMetric "x" CounterType (Int64 1))] in
  let w' := after (Add doubling (after (Add doubling w (mkMetric "x" GaugeType (Float64 1))))
                     (mkMetric "x" CounterType (Int64 5))) in
  with_key ("x", CounterType) (contents w') = [mkMetric "x" CounterType (Int64 6)] /\
  with_key ("x", CounterType) (contents w') <> [mkMetric "x" CounterType (Int64 5)].
Proof.
  split; vm_compute; congruence.
Qed.

(** C6.  After every finite sequence of calls on a new store, [Get] returns
    exactly the stored entries, and their keys are the keys added so far in
    the order of their first [Add].  One more [Add] under a key the store
    holds changes neither the keys nor their positions; under a new key it
    puts the metric at the end.  [Get] on a new store returns nothing. *)
Theorem C6_first_insertion_order (spare : nat -> nat) (cs : list call) (m : Metric) :
  let w := run spare NewMemStorage cs in
  let w' := after (Add spare w m) in
  view (snd (Get w)) (fst (Get w)) = contents w /\
  key <$> contents w = first_occurrences [] (key <$> added cs) /\
  (if decide (key m ∈ key <$> contents w)
   then key <$> contents w' = key <$> contents w
   else contents w' = contents w ++ [m]) /\
  view (snd (Get NewMemStorage)) (fst (Get NewMemStorage)) = [].
Proof.
  intros w w'. subst w'.
  assert (Hwf : wf w) by apply reachable_wf.
  repeat split.
  - destruct (Get w) as [sl w1] eqn:HG. apply (Get_spec w sl w1 Hwf HG).
  - unfold w. rewrite run_keys by apply NewMemStorage_wf. reflexivity.
  - pose proof (Add_keys spare w m Hwf) as Hk. case_decide.
    + assumption.
    + apply Add_new; assumption.
Qed.

(** C7.  In every state the store can reach, the slice [Get] returns reads
    as the stored entries, and it reads the same after any one [Add] and
    after any further sequence of calls: no later call changes an element
    of a snapshot. *)
Theorem C7_snapshot_isolation (spare : nat -> nat) (cs cs' : list call) (m : Metric) :
  let w := run spare NewMemStorage cs in
  let s := fst (Get w) in
  let w1 := snd (Get w) in
  view w1 s = contents w /\
  view (after (Add spare w1 m)) s = view w1 s /\
  view (run spare w1 cs') s = view w1 s.
Proof.
  intros w s w1. subst s w1.
  assert (Hwf : wf w) by apply reachable_wf.
  destruct (Get w) as [s w1] eqn:HG. simpl.
  destruct (Get_spec w s w1 Hwf HG) as (_ & Hwf1 & _ & Hv & Hd & _).
  repeat split.
  - assumption.
  - apply (run_detached spare w1 [CallAdd m] s); assumption.
  - apply run_detached; assumption.
Qed.

(** C8.  [Add] returns, no type assertion failing, when every metric
    passed to [Add] so far and the one passed now carry the representation
    of their kind: an [int64] under Counter, a [float64] under Gauge.  [Get]
    has no failing path at all: in every world it returns a slice, and in
    every state the store can reach that slice reads as the stored
    entries. *)
Theorem C8_no_failure (spare : nat -> nat) (cs : list call) (m : Metric) (w0 : world) :
  let w := run spare NewMemStorage cs in
  (Forall well_typed (added cs) -> well_typed m -> exists w', Add spare w m = Return w') /\
  (exists s w', Get w = (s, w') /\ view w' s = contents w) /\
  (exists s w', Get w0 = (s, w')).
Proof.
  intros w. repeat split.
  - intros Hty Hm. eexists. apply Add_typed_returns; assumption.
  - destruct (Get w) as [s w'] eqn:HG. exists s, w'. split; [reflexivity|].
    apply (Get_spec w s w' (reachable_wf spare cs) HG).
  - destruct (Get w0) as [s w']. eauto.
Qed.

Lemma C8_no_failure_witness :
  exists w',
    Add doubling
      (run doubling NewMemStorage
         [CallAdd (mkMetric "x" CounterType (Int64 1)); CallGet;
          CallAdd (mkMetric "x" GaugeType (Float64 1))])
      (mkMetric "x" CounterType (Int64 2)) = Return w'.
Proof.
  refine (proj1 (C8_no_failure doubling
            [CallAdd (mkMetric "x" CounterType (Int64 1)); CallGet;
             CallAdd (mkMetric "x" GaugeType (Float64 1))]
            (mkMetric "x" CounterType (Int64 2)) NewMemStorage) _ _).
  - apply Forall_cons_2; [apply well_typed_counter; unfold in_int64, min_int64, max_int64; lia|].
    apply Forall_cons_2; [apply well_typed_gauge|]. apply Forall_nil_2.
  - apply well_typed_counter. unfold in_int64, min_int64, max_int64. lia.
Defined.

(** C9.  In every state the store can reach, [Add] of [m] leaves every entry
    at its position with its name and kind, and with its value too unless
    its key is the key of [m]; the number of entries stays when the key is
    held and grows by one when it is new, so it never goes down; [Get]
    changes no entry. *)
Theorem C9_frame_of_Add (spare : nat -> nat) (cs : list call) (m : Metric) :
  let w := run spare NewMemStorage cs in
  let w' := after (Add spare w m) in
  (forall i e, contents w !! i = Some e ->
     exists e', contents w' !! i = Some e' /\ Name e' = Name e /\ Type_ e' = Type_ e /\
                (key e <> key m -> e' = e)) /\
  length (contents w') =
    (if decide (key m ∈ key <$> contents w) then length (contents w)
     else S (length (contents w))) /\
  (length (contents w) <= length (contents w'))%nat /\
  contents (snd (Get w)) = contents w.
Proof.
  intros w w'. subst w'.
  assert (Hwf : wf w) by apply reachable_wf.
  pose proof (Add_length spare w m Hwf) as Hlen.
  repeat split.
  - intros i e Hi. destruct (Add_lookup spare w m i e Hwf Hi) as (e' & He' & Hk & Hv).
    exists e'. unfold key in Hk. repeat split; congruence || assumption.
  - assumption.
  - rewrite Hlen. case_decide; lia.
  - apply Get_contents. assumption.
Qed.

Lemma C9_frame_of_Add_witness :
  exists e',
    contents (after (Add doubling
      (run doubling NewMemStorage
         [CallAdd (mkMetric "a" GaugeType (Float64 1));
          CallAdd (mkMetric "b" CounterType (Int64 2))])
      (mkMetric "b" CounterType (Int64 3)))) !! 0%nat = Some e' /\
    Name e' = "a" /\ Type_ e' = GaugeType /\
    (key (mkMetric "a" GaugeType (Float64 1)) <> key (mkMetric "b" CounterType (Int64 3)) ->
     e' = mkMetric "a" GaugeType (Float64 1)).
Proof.
  refine (proj1 (C9_frame_of_Add doubling
            [CallAdd (mkMetric "a" GaugeType (Float64 1));
             CallAdd (mkMetric "b" CounterType (Int64 2))]
            (mkMetric "b" CounterType (Int64 3))) 0%nat (mkMetric "a" GaugeType (Float64 1)) _).
  vm_compute. reflexivity.
Defined.

(** C10.  The store does not look at the name.  In every state the store
    can reach, [Add] of a metric with the empty name appends it when the key
    [("", t)] is new, and otherwise merges it into the entry of that key by
    the rule of its kind; entries with a non-empty name stay as they are.
    Exchanging the empty name with any name [n] throughout a sequence of
    calls exchanges the two names in the stored entries and changes nothing
    else. *)
Theorem C10_empty_name_is_ordinary
    (spare : nat -> nat) (cs : list call) (t : MetricType) (v : iface) (n : string) :
  let w := run spare NewMemStorage cs in
  let m := mkMetric "" t v in
  let w' := after (Add spare w m) in
  (if decide (("", t) ∈ key <$> contents w)
   then exists e, e ∈ contents w /\ key e = ("", t) /\
          match merged e m with
          | Some e' => Add spare w m = Return w' /\ with_key ("", t) (contents w') = [e']
          | None => Add spare w m = Panicked w
          end
   else Add spare w m = Return w' /\ contents w' = contents w ++ [m]) /\
  (forall i e, contents w !! i = Some e -> Name e <> "" -> contents w' !! i = Some e) /\
  contents (run spare NewMemStorage (swap_call n <$> cs)) =
    swap_metric n <$> contents (run spare NewMemStorage cs).
Proof.
  intros w m w'. subst w'.
  assert (Hwf : wf w) by apply reachable_wf.
  assert (Hu : unique_keys (contents w)) by apply reachable_unique.
  repeat split.
  - case_decide as Hin.
    + apply list_elem_of_fmap in Hin. destruct Hin as (e & Hk & He).
      exists e. repeat split; [assumption | congruence |].
      destruct (merged e m) as [e'|] eqn:Hm.
      * destruct (Add_existing spare w m e e') as (HR & Hw & _); auto.
      * apply Add_panics; [assumption|].
        pose proof (upsert_of_entry _ m e Hu He (eq_sym Hk)) as H.
        rewrite Hm in H. exact H.
    + apply Add_new; assumption.
  - intros i e Hi Hne.
    destruct (Add_lookup spare w m i e Hwf Hi) as (e' & He' & _ & Hv).
    rewrite He', Hv; [reflexivity|]. unfold key. simpl. congruence.
  - rewrite !run_contents by apply NewMemStorage_wf.
    rewrite added_swap. apply (upserts_swap n (added cs) []).
Qed.

Lemma C10_empty_name_is_ordinary_witness :
  contents (after (Add doubling
    (run doubling NewMemStorage
       [CallAdd (mkMetric "a" GaugeType (Float64 1));
        CallAdd (mkMetric "" CounterType (Int64 1))])
    (mkMetric "" CounterType (Int64 2)))) !! 0%nat
  = Some (mkMetric "a" GaugeType (Float64 1)).
Proof.
  refine (proj1 (proj2 (C10_empty_name_is_ordinary doubling
            [CallAdd (mkMetric "a" GaugeType (Float64 1));
             CallAdd (mkMetric "" CounterType (Int64 1))]
            CounterType (Int64 2) "a")) 0%nat (mkMetric "a" GaugeType (Float64 1)) _ _).
  - vm_compute. reflexivity.
  - discriminate.
Defined.

(** The empty name counts like any other: two updates of the counter [""]
    add up. *)
Example empty_name_counts :
  contents (run doubling NewMemStorage
              [CallAdd (mkMetric "" CounterType (Int64 1));
               CallAdd (mkMetric "" CounterType (Int64 2))])
  = [mkMetric "" CounterType (Int64 3)].
Proof. vm_compute. reflexivity. Qed.

(** * Further properties of the store *)

Lemma merged_mistyped e m :
  Type_ m = CounterType ->
  assert_int64 (Value e) = None \/ assert_int64 (Value m) = None ->
  merged e m = None.
Proof.
  unfold merged. intros -> [H|H]; simpl; rewrite H; [reflexivity|].
  destruct (assert_int64 (Value e)); reflexivity.
Qed.

Lemma merged_other_kind e m :
  Type_ m <> GaugeType -> Type_ m <> CounterType -> merged e m = Some e.
Proof.
  unfold merged. intros Hg Hc.
  destruct (Z.eqb_spec (Type_ m) GaugeType); [contradiction|].
  destruct (Z.eqb_spec (Type_ m) CounterType); [contradiction|]. reflexivity.
Qed.

(** The entry a key has after an update under it, from the entry it had. *)
Lemma upsert_with_key_same l m :
  unique_keys l ->
  with_key (key m) (default l (upsert l m)) =
  match with_key (key m) l with
  | [] => [m]
  | e :: _ => [default e (merged e m)]
  end.
Proof.
  intros Hu. destruct (decide (key m ∈ key <$> l)) as [Hin|Hn].
  - apply list_elem_of_fmap in Hin. destruct Hin as (e & Hk & He).
    rewrite Hk, (with_key_unique l e Hu He), <- Hk.
    pose proof (upsert_of_entry l m e Hu He (eq_sym Hk)) as H.
    destruct (merged e m) as [e'|]; simpl.
    + destruct H as (l' & -> & Hw & _). exact Hw.
    + rewrite H. simpl. rewrite Hk. apply with_key_unique; assumption.
  - rewrite (with_key_absent _ _ Hn), (upsert_absent _ _ Hn). simpl.
    rewrite with_key_app, (with_key_absent _ _ Hn). unfold with_key.
    rewrite filter_cons_True by reflexivity. reflexivity.
Qed.

Lemma total_Permutation k ms ms' : ms ≡ₚ ms' -> total k ms = total k ms'.
Proof.
  induction 1 as [|m ms ms' _ IH|m1 m2 ms|ms1 ms2 ms3 _ IH1 _ IH2]; simpl; lia.
Qed.

Lemma last_with_key_snoc k ms m :
  last_with_key k (ms ++ [m]) =
  if decide (key m = k) then Some m else last_with_key k ms.
Proof.
  induction ms as [|x ms IH]; simpl.
  - destruct (decide (key m = k)); reflexivity.
  - rewrite IH. destruct (decide (key m = k)); reflexivity.
Qed.

Section MoreOfTheStore.

Variable spare : nat -> nat.

Lemma Add_with_key_same w m :
  wf w -> unique_keys (contents w) ->
  with_key (key m) (contents (after (Add spare w m))) =
  match with_key (key m) (contents w) with
  | [] => [m]
  | e :: _ => [default e (merged e m)]
  end.
Proof.
  intros Hwf Hu. rewrite Add_contents by assumption.
  apply upsert_with_key_same. assumption.
Qed.

(** Once an entry makes every update under its key panic, it stays. *)
Lemma run_stuck_entry e cs : forall w,
  wf w -> unique_keys (contents w) -> e ∈ contents w ->
  (forall m, key m = key e -> merged e m = None) ->
  e ∈ contents (run spare w cs).
Proof.
  induction cs as [|c cs IH]; intros w Hwf Hu He Hstuck; [exact He|].
  rewrite run_cons. apply IH; auto using step_wf, step_unique.
  destruct c as [m|].
  - change (step spare w (CallAdd m)) with (after (Add spare w m)).
    apply list_elem_of_lookup in He. destruct He as [i Hi].
    destruct (Add_lookup spare w m i e Hwf Hi) as (e' & He' & _ & Hsame).
    destruct (decide (key e = key m)) as [Hk|Hk].
    + rewrite Add_contents by assumption.
      pose proof (upsert_of_entry _ m e Hu ltac:(eapply list_elem_of_lookup_2; eassumption) Hk) as H.
      rewrite (Hstuck m (eq_sym Hk)) in H. rewrite H. simpl.
      eapply list_elem_of_lookup_2; eassumption.
    + rewrite (Hsame Hk) in He'. eapply list_elem_of_lookup_2; eassumption.
  - change (step spare w CallGet) with (snd (Get w)).
    rewrite Get_contents by assumption. exact He.
Qed.

Lemma run_app w cs cs' : run spare w (cs ++ cs') = run spare (run spare w cs) cs'.
Proof. unfold run. apply fold_left_app. Qed.

End MoreOfTheStore.

(** X1.  In every state the store can reach, [Add] panics exactly when the
    kind of the metric is Counter, the store holds an entry with its key,
    and the stored value or the new one is not an [int64]; and a panicking
    [Add] leaves the world, heap and store, exactly as it found it. *)
Theorem Add_panics_exactly_when (spare : nat -> nat) (cs : list call) (m : Metric) :
  let w := run spare NewMemStorage cs in
  ((exists w', Add spare w m = Panicked w') <->
   Type_ m = CounterType /\
   exists e, e ∈ contents w /\ key e = key m /\
     (assert_int64 (Value e) = None \/ assert_int64 (Value m) = None)) /\
  (forall w', Add spare w m = Panicked w' -> w' = w).
Proof.
  intros w.
  assert (Hwf : wf w) by apply reachable_wf.
  assert (Hu : unique_keys (contents w)) by apply reachable_unique.
  destruct (Add_spec spare w m Hwf) as (_ & _ & _ & Hspec).
  split; [split|].
  - intros [w' Hp]. destruct (upsert (contents w) m) as [l'|] eqn:E.
    + destruct Hspec as [HR _]. congruence.
    + destruct (upsert_None _ _ E) as (pre & e & suf & Hl & _ & He & Hm).
      apply merged_None in Hm. destruct Hm as [Hc Hbad].
      split; [assumption|]. exists e. repeat split; auto.
      rewrite Hl. apply elem_of_app. right. apply list_elem_of_here.
  - intros (Hc & e & He & Hk & Hbad). exists w. apply Add_panics; [assumption|].
    pose proof (upsert_of_entry _ m e Hu He Hk) as H.
    rewrite (merged_mistyped e m Hc Hbad) in H. exact H.
  - intros w' Hp. destruct (upsert (contents w) m) as [l'|].
    + destruct Hspec as [HR _]. congruence.
    + congruence.
Qed.

(** X2.  The [switch] of [Add] has no default: for a metric whose kind is
    neither Gauge nor Counter, [Add] returns, changes no entry when the key
    is held, and appends the metric when the key is new. *)
Theorem Add_of_another_kind (spare : nat -> nat) (cs : list call) (m : Metric) :
  Type_ m <> GaugeType ->
  Type_ m <> CounterType ->
  let w := run spare NewMemStorage cs in
  let w' := after (Add spare w m) in
  Add spare w m = Return w' /\
  contents w' = if decide (key m ∈ key <$> contents w) then contents w else contents w ++ [m].
Proof.
  intros Hg Hc w w'. subst w'.
  assert (Hwf : wf w) by apply reachable_wf.
  case_decide as Hin.
  - destruct (first_with_key (key m) (contents w))
      as [Hn | (pre & e & suf & Hl & Hn & He)]; [contradiction|].
    assert (Hup : upsert (contents w) m = Some (contents w)).
    { rewrite Hl, (upsert_present pre e suf m Hn He), (merged_other_kind e m Hg Hc).
      reflexivity. }
    split; [apply Add_returns; [assumption | rewrite Hup; eauto]|].
    rewrite Add_contents, Hup by assumption. reflexivity.
  - apply Add_new; assumption.
Qed.

Lemma Add_of_another_kind_witness :
  contents (after (Add doubling
    (run doubling NewMemStorage [CallAdd (mkMetric "x" 7 (Int64 1))])
    (mkMetric "x" 7 (Int64 5))))
  = [mkMetric "x" 7 (Int64 1)].
Proof.
  refine (proj2 (Add_of_another_kind doubling [CallAdd (mkMetric "x" 7 (Int64 1))]
            (mkMetric "x" 7 (Int64 5)) _ _)); discriminate.
Defined.

(** X3.  [Add] stores the first metric of a key as it comes.  When the first
    metric under [(n, Counter)] carries anything but an [int64], the entry is
    stored with that value, and after any further calls it is still there
    unchanged and every [Add] under its key panics. *)
Theorem mistyped_counter_sticks
    (spare : nat -> nat) (cs cs' : list call) (n : string) (v d : iface) :
  assert_int64 v = None ->
  (n, CounterType) ∉ key <$> contents (run spare NewMemStorage cs) ->
  let w := run spare NewMemStorage (cs ++ CallAdd (mkMetric n CounterType v) :: cs') in
  with_key (n, CounterType) (contents w) = [mkMetric n CounterType v] /\
  Add spare w (mkMetric n CounterType d) = Panicked w.
Proof.
  intros Hv Hn w.
  assert (Hwf : wf w) by apply reachable_wf.
  assert (Hu : unique_keys (contents w)) by apply reachable_unique.
  assert (Hstuck : forall m, key m = key (mkMetric n CounterType v) ->
            merged (mkMetric n CounterType v) m = None).
  { intros m Hk. apply merged_mistyped; [|left; exact Hv].
    unfold key in Hk. simpl in Hk. congruence. }
  assert (Hin : mkMetric n CounterType v ∈ contents w).
  { unfold w. rewrite run_app, run_cons.
    change (step spare (run spare NewMemStorage cs) (CallAdd (mkMetric n CounterType v)))
      with (after (Add spare (run spare NewMemStorage cs) (mkMetric n CounterType v))).
    apply (run_stuck_entry spare); auto using Add_wf, Add_unique, reachable_wf, reachable_unique.
    destruct (Add_new spare (run spare NewMemStorage cs) (mkMetric n CounterType v)
                (reachable_wf spare cs) Hn) as [_ ->].
    apply elem_of_app. right. apply list_elem_of_here. }
  split.
  - apply (with_key_unique _ _ Hu Hin).
  - apply Add_panics; [assumption|].
    pose proof (upsert_of_entry _ (mkMetric n CounterType d) _ Hu Hin eq_refl) as H.
    rewrite (Hstuck (mkMetric n CounterType d) eq_refl) in H. exact H.
Qed.

Lemma mistyped_counter_sticks_witness :
  let w := run doubling NewMemStorage
             [CallAdd (mkMetric "x" CounterType (Float64 1));
              CallAdd (mkMetric "x" CounterType (Int64 2)); CallGet] in
  with_key ("x", CounterType) (contents w) = [mkMetric "x" CounterType (Float64 1)] /\
  Add doubling w (mkMetric "x" CounterType (Int64 3)) = Panicked w.
Proof.
  refine (mistyped_counter_sticks doubling []
            [CallAdd (mkMetric "x" CounterType (Int64 2)); CallGet]
            "x" (Float64 1) (Int64 3) _ _).
  - reflexivity.
  - vm_compute. apply not_elem_of_nil.
Defined.

(** X4.  After every sequence of calls on a new store, the entries under a
    Gauge key are the last metric added under that key and nothing else:
    nothing of the earlier updates is left. *)
Theorem gauge_holds_last_update (spare : nat -> nat) (cs : list call) (n : string) :
  with_key (n, GaugeType) (contents (run spare NewMemStorage cs)) =
  match last_with_key (n, GaugeType) (added cs) with
  | Some m => [m]
  | None => []
  end.
Proof.
  induction cs as [|c cs IH] using rev_ind; [reflexivity|].
  rewrite run_snoc, added_snoc.
  assert (Hwf : wf (run spare NewMemStorage cs)) by apply reachable_wf.
  assert (Hu : unique_keys (contents (run spare NewMemStorage cs))) by apply reachable_unique.
  destruct c as [m|].
  - change (step spare (run spare NewMemStorage cs) (CallAdd m))
      with (after (Add spare (run spare NewMemStorage cs) m)).
    rewrite last_with_key_snoc. case_decide as Hk.
    + rewrite <- Hk. apply Add_gauge_with_key; try assumption.
      unfold key in Hk. congruence.
    + rewrite Add_with_key_other by (try assumption; congruence). exact IH.
  - change (step spare (run spare NewMemStorage cs) CallGet)
      with (snd (Get (run spare NewMemStorage cs))).
    rewrite Get_contents, app_nil_r by assumption. exact IH.
Qed.

(** X5.  Two [Add]s under different keys can be swapped: whichever comes
    first, every key ends with the same entries. *)
Theorem Adds_under_different_keys_commute
    (spare : nat -> nat) (cs : list call) (m1 m2 : Metric) (k : string * MetricType) :
  key m1 <> key m2 ->
  with_key k (contents (run spare NewMemStorage (cs ++ [CallAdd m1; CallAdd m2]))) =
  with_key k (contents (run spare NewMemStorage (cs ++ [CallAdd m2; CallAdd m1]))).
Proof.
  intros Hne. rewrite !run_app.
  set (w := run spare NewMemStorage cs).
  change (run spare w [CallAdd m1; CallAdd m2])
    with (after (Add spare (after (Add spare w m1)) m2)).
  change (run spare w [CallAdd m2; CallAdd m1])
    with (after (Add spare (after (Add spare w m2)) m1)).
  assert (Hwf : wf w) by apply reachable_wf.
  assert (Hu : unique_keys (contents w)) by apply reachable_unique.
  pose proof (Add_wf spare w m1 Hwf) as Hwf1.
  pose proof (Add_wf spare w m2 Hwf) as Hwf2.
  pose proof (Add_unique spare w m1 Hwf Hu) as Hu1.
  pose proof (Add_unique spare w m2 Hwf Hu) as Hu2.
  destruct (decide (k = key m1)) as [->|H1]; [|destruct (decide (k = key m2)) as [->|H2]].
  - rewrite (Add_with_key_other spare _ m2) by (try assumption; congruence).
    rewrite !Add_with_key_same by assumption.
    rewrite (Add_with_key_other spare w m2) by (try assumption; congruence). reflexivity.
  - rewrite (Add_with_key_other spare _ m1) by (try assumption; congruence).
    rewrite !Add_with_key_same by assumption.
    rewrite (Add_with_key_other spare w m1) by (try assumption; congruence). reflexivity.
  - rewrite !Add_with_key_other by assumption. reflexivity.
Qed.

Lemma Adds_under_different_keys_commute_witness :
  with_key ("x", CounterType)
    (contents (run doubling NewMemStorage
       ([CallAdd (mkMetric "x" CounterType (Int64 1))]
        ++ [CallAdd (mkMetric "x" GaugeType (Float64 2));
            CallAdd (mkMetric "x" CounterType (Int64 3))]))) =
  with_key ("x", CounterType)
    (contents (run doubling NewMemStorage
       ([CallAdd (mkMetric "x" CounterType (Int64 1))]
        ++ [CallAdd (mkMetric "x" CounterType (Int64 3));
            CallAdd (mkMetric "x" GaugeType (Float64 2))]))).
Proof.
  refine (Adds_under_different_keys_commute doubling
            [CallAdd (mkMetric "x" CounterType (Int64 1))]
            (mkMetric "x" GaugeType (Float64 2)) (mkMetric "x" CounterType (Int64 3))
            ("x", CounterType) _).
  discriminate.
Defined.

(** X6.  Under the caller contract the entries under a Counter key do not
    depend on the order of the updates: two sequences of calls that add the
    same metrics, each as often, in any order and with any [Get]s in
    between, leave the same entry, overflow included. *)
Theorem counter_ignores_update_order (spare : nat -> nat) (cs cs' : list call) (n : string) :
  Forall well_typed (added cs) ->
  added cs ≡ₚ added cs' ->
  with_key (n, CounterType) (contents (run spare NewMemStorage cs)) =
  with_key (n, CounterType) (contents (run spare NewMemStorage cs')).
Proof.
  intros Hty Hperm.
  assert (Hty' : Forall well_typed (added cs')) by (rewrite <- Hperm; exact Hty).
  assert (Hentry : forall cs0, Forall well_typed (added cs0) ->
            (n, CounterType) ∈ key <$> added cs0 ->
            with_key (n, CounterType) (contents (run spare NewMemStorage cs0)) =
            [mkMetric n CounterType (Int64 (wrap64 (total (n, CounterType) (added cs0))))]).
  { intros cs0 Hty0 Hin. apply (reachable_keys spare) in Hin.
    apply list_elem_of_fmap in Hin. destruct Hin as (e & Hk & He).
    assert (Hc : Type_ e = CounterType) by (unfold key in Hk; congruence).
    pose proof (run_counter_total spare cs0 Hty0 e He Hc) as Hv.
    rewrite <- Hk in Hv. rewrite Hk at 1.
    rewrite (with_key_unique _ e (reachable_unique spare cs0) He).
    destruct e as [en et ev]. unfold key in Hk. simpl in *. congruence. }
  destruct (decide ((n, CounterType) ∈ key <$> added cs)) as [Hin|Hn].
  - rewrite !Hentry; try assumption.
    + rewrite (total_Permutation _ _ _ Hperm). reflexivity.
    + rewrite <- Hperm. exact Hin.
  - rewrite !with_key_absent; [reflexivity | |];
      rewrite (reachable_keys spare); [rewrite <- Hperm|]; exact Hn.
Qed.

Lemma counter_ignores_update_order_witness :
  with_key ("x", CounterType)
    (contents (run doubling NewMemStorage
       [CallAdd (mkMetric "x" CounterType (Int64 1));
        CallAdd (mkMetric "x" CounterType (Int64 2))])) =
  with_key ("x", CounterType)
    (contents (run doubling NewMemStorage
       [CallAdd (mkMetric "x" CounterType (Int64 2)); CallGet;
        CallAdd (mkMetric "x" CounterType (Int64 1))])).
Proof.
  refine (counter_ignores_update_order doubling
            [CallAdd (mkMetric "x" CounterType (Int64 1));
             CallAdd (mkMetric "x" CounterType (Int64 2))]
            [CallAdd (mkMetric "x" CounterType (Int64 2)); CallGet;
             CallAdd (mkMetric "x" CounterType (Int64 1))] "x" _ _).
  - apply Forall_cons_2; [apply well_typed_counter; unfold in_int64, min_int64, max_int64; lia|].
    apply Forall_cons_2; [apply well_typed_counter; unfold in_int64, min_int64, max_int64; lia|].
    apply Forall_nil_2.
  - apply Permutation_swap.
Defined.

(** * Further properties of the concurrent callers *)

Lemma spawn_started (js : list (option Metric)) : started (spawn <$> js) = [].
Proof. induction js as [|[m|] js IH]; [reflexivity | exact IH | exact IH]. Qed.

Lemma spawn_jobs (js : list (option Metric)) : omap job (spawn <$> js) = omap id js.
Proof.
  induction js as [|[m|] js IH]; [reflexivity | | exact IH].
  rewrite fmap_cons. simpl. f_equal. exact IH.
Qed.

Lemma spawn_writers (js : list (option Metric)) : writers (spawn <$> js) = O.
Proof.
  induction js as [|j js IH]; [reflexivity|]. rewrite fmap_cons.
  change (spawn j :: (spawn <$> js)) with ([] ++ spawn j :: (spawn <$> js)).
  rewrite writers_middle, IH. destruct j; reflexivity.
Qed.

Lemma spawn_readers (js : list (option Metric)) : readers (spawn <$> js) = O.
Proof.
  induction js as [|j js IH]; [reflexivity|]. rewrite fmap_cons.
  change (spawn j :: (spawn <$> js)) with ([] ++ spawn j :: (spawn <$> js)).
  rewrite readers_middle, IH. destruct j; reflexivity.
Qed.


Lemma appenders_le ts : (appenders ts <= length ts)%nat.
Proof. unfold appenders. apply length_filter. Qed.

Lemma added_CallAdd (ms : list Metric) : added (CallAdd <$> ms) = ms.
Proof. induction ms as [|m ms IH]; [reflexivity|]. rewrite fmap_cons. simpl. f_equal. exact IH. Qed.


Section Snapshots2.

Variable spare : nat -> nat.





End Snapshots2.

(** X7.  Any callers of [Add], each with any metric, and any callers of
    [Get] arrive on a state the store can reach and take their steps in any
    order the lock allows.  Whenever all of them are done, the store holds
    the entries that the same [Add]s leave when they are called one after
    another in some order.  No schedule deadlocks, and some schedule gets
    every caller done. *)
Theorem concurrent_Adds_linearize
    (spare : nat -> nat) (cs : list call) (js : list (option Metric)) :
  let w0 := run spare NewMemStorage cs in
  let c0 := start w0 (spawn <$> js) in
  (forall c, rtc (sched spare) c0 c -> all_done c ->
     exists ms, ms ≡ₚ omap id js /\
       contents (mem c) = contents (run spare w0 (CallAdd <$> ms))) /\
  (forall c, rtc (sched spare) c0 c -> ~ all_done c -> exists c', sched spare c c') /\
  (exists c, rtc (sched spare) c0 c /\ all_done c).
Proof.
  intros w0 c0.
  assert (Hwf : wf w0) by apply reachable_wf.
  assert (Hinv : lock_inv spare (contents w0) (omap id js) c0).
  { rewrite <- spawn_jobs. apply lock_inv_start;
      auto using spawn_started, spawn_writers, spawn_readers. }
  assert (Hroom : room (length (contents w0) + length js) c0).
  { unfold room, c0, start. simpl. pose proof (appenders_le (spawn <$> js)) as Hle.
    rewrite length_fmap in Hle. fold (contents w0). unfold contents.
    rewrite elems_length by exact Hwf. lia. }
  repeat split.
  - intros c Hs Hd.
    destruct (lock_inv_done spare _ _ c (lock_inv_steps spare _ _ _ _ Hinv Hs) Hd)
      as (ms & Hperm & Hc).
    exists ms. split; [exact Hperm|].
    rewrite run_contents, added_CallAdd by exact Hwf. exact Hc.
  - intros c Hs Hnd. eapply lock_inv_progress; [|exact Hnd].
    eapply lock_inv_steps; eassumption.
  - eapply lock_inv_finish; eassumption.
Qed.

Lemma concurrent_Adds_linearize_witness :
  match sched_along doubling
          (start NewMemStorage
             (spawn <$> [Some (mkMetric "x" CounterType (Int64 1)); None;
                         Some (mkMetric "y" GaugeType (Float64 2))]))
          [2; 2; 2; 2; 2; 1; 1; 1; 0; 0; 0; 0; 0; 0]%nat with
  | Some c =>
      exists ms,
        ms ≡ₚ [mkMetric "x" CounterType (Int64 1); mkMetric "y" GaugeType (Float64 2)] /\
        contents (mem c) = contents (run doubling NewMemStorage (CallAdd <$> ms))
  | None => False
  end.
Proof.
  pose proof (proj1 (concurrent_Adds_linearize doubling []
                       [Some (mkMetric "x" CounterType (Int64 1)); None;
                        Some (mkMetric "y" GaugeType (Float64 2))])) as Hfinal.
  destruct (sched_along doubling _ _) as [c|] eqn:E.
  - apply Hfinal; [eapply sched_along_rtc; exact E|].
    vm_compute in E. injection E as <-. repeat constructor.
  - vm_compute in E. discriminate.
Defined.



(** * The HTTP handlers *)

Lemma upsert_represented l m :
  Forall represented l -> represented m ->
  exists l', upsert l m = Some l' /\ Forall represented l'.
Proof.
  intros Hl Hm. destruct (first_with_key (key m) l) as [Hn | (pre & e & suf & -> & Hn & He)].
  - exists (l ++ [m]). split; [apply upsert_absent; exact Hn|].
    apply Forall_app. split; [exact Hl | apply Forall_singleton; exact Hm].
  - rewrite (upsert_present pre e suf m Hn He).
    apply Forall_app in Hl. destruct Hl as [Hpre Hsuf].
    apply Forall_cons in Hsuf. destruct Hsuf as [Hre Hsuf].
    assert (Ht : Type_ e = Type_ m) by (unfold key in He; congruence).
    assert (exists e', merged e m = Some e' /\ represented e') as (e' & -> & He').
    { destruct Hm as [(Hc & z & Hz) | (Hg & f & Hf)].
      - destruct Hre as [(_ & a & Ha) | (Hge & _)];
          [|unfold GaugeType, CounterType in *; congruence].
        rewrite (merged_counter e m a z Hc Ha Hz). eexists. split; [reflexivity|].
        left. simpl. split; [congruence | eauto].
      - rewrite (merged_gauge e m Hg). eexists. split; [reflexivity|].
        right. simpl. split; [congruence | eauto]. }
    simpl. eexists. split; [reflexivity|].
    apply Forall_app. split; [exact Hpre | apply Forall_cons; auto].
Qed.

Section ServerProofs.

Variable spare : nat -> nat.
Variable ParseFloat : string -> option float.
Variable ParseInt : string -> option Z.
Variable format_v : iface -> string.

Lemma accepted_represented r m :
  accepted ParseFloat ParseInt r = Some (CallAdd m) -> represented m.
Proof.
  destruct r as [t n v|]; simpl; [|discriminate].
  destruct (String.eqb t "gauge").
  - destruct (ParseFloat v) as [f|]; [|discriminate]. intros [= <-].
    right. split; [reflexivity | eauto].
  - destruct (String.eqb t "counter"); [|discriminate].
    destruct (ParseInt v) as [z|]; [|discriminate]. intros [= <-].
    left. split; [reflexivity | eauto].
Qed.

(** An update comes to the store as one [Add], whether it returns or
    panics, and a rejected one does not come to it. *)
Lemma update_handler_cases w t n v :
  match accepted ParseFloat ParseInt (PostUpdate t n v) with
  | Some (CallAdd m) =>
      update_handler spare ParseFloat ParseInt w t n v =
      match Add spare w m with
      | Return w' => Answered [Status StatusOK] w'
      | Panicked w' => Panicking [] w'
      end
  | Some CallGet => False
  | None =>
      exists message,
        update_handler spare ParseFloat ParseInt w t n v =
        Answered [AbortWithStatusJSON StatusBadRequest message] w
  end.
Proof.
  unfold update_handler, accepted.
  destruct (String.eqb_spec t "gauge") as [->|Hg].
  - destruct (ParseFloat v) as [f|]; simpl; eauto.
  - destruct (String.eqb_spec t "counter") as [->|Hc].
    + destruct (ParseInt v) as [z|]; simpl; eauto.
    + eauto.
Qed.

Lemma serve_world w r :
  snd (serve spare ParseFloat ParseInt format_v w r) =
  match accepted ParseFloat ParseInt r with
  | Some c => step spare w c
  | None => w
  end.
Proof.
  destruct r as [t n v|].
  - unfold serve. pose proof (update_handler_cases w t n v) as H.
    destruct (accepted ParseFloat ParseInt (PostUpdate t n v)) as [[m|]|];
      [| contradiction | destruct H as [msg ->]; reflexivity].
    rewrite H. change (step spare w (CallAdd m)) with (after (Add spare w m)).
    destruct (Add spare w m); reflexivity.
  - transitivity (snd (Get w)); [|reflexivity].
    unfold serve, metrics_handler. destruct (Get w). reflexivity.
Qed.

Lemma serve_all_cons w r rs :
  serve_all spare ParseFloat ParseInt format_v w (r :: rs) =
  (fst (serve spare ParseFloat ParseInt format_v w r)
     :: fst (serve_all spare ParseFloat ParseInt format_v
               (snd (serve spare ParseFloat ParseInt format_v w r)) rs),
   snd (serve_all spare ParseFloat ParseInt format_v
          (snd (serve spare ParseFloat ParseInt format_v w r)) rs)).
Proof.
  simpl. destruct (serve spare ParseFloat ParseInt format_v w r) as [a w1]. simpl.
  destruct (serve_all spare ParseFloat ParseInt format_v w1 rs). reflexivity.
Qed.

Lemma serve_all_world rs : forall w,
  snd (serve_all spare ParseFloat ParseInt format_v w rs) =
  run spare w (omap (accepted ParseFloat ParseInt) rs).
Proof.
  induction rs as [|r rs IH]; intros w; [reflexivity|].
  rewrite serve_all_cons. simpl snd. rewrite IH, serve_world. simpl omap.
  destruct (accepted ParseFloat ParseInt r); reflexivity.
Qed.

Lemma accepted_all_represented rs :
  Forall represented (added (omap (accepted ParseFloat ParseInt) rs)).
Proof.
  induction rs as [|r rs IH]; [apply Forall_nil_2|]. simpl omap.
  destruct (accepted ParseFloat ParseInt r) as [[m|]|] eqn:E; [|exact IH|exact IH].
  change (added (CallAdd m :: omap (accepted ParseFloat ParseInt) rs))
    with (m :: added (omap (accepted ParseFloat ParseInt) rs)).
  apply Forall_cons. split; [eapply accepted_represented; exact E | exact IH].
Qed.

(** The entries stay represented, and an [Add] of a represented metric
    returns. *)
Lemma represented_step w c :
  wf w -> Forall represented (contents w) ->
  match c with CallAdd m => represented m | CallGet => True end ->
  Forall represented (contents (step spare w c)) /\
  match c with
  | CallAdd m => Add spare w m = Return (after (Add spare w m))
  | CallGet => True
  end.
Proof.
  intros Hwf Hl Hc. destruct c as [m|].
  - change (step spare w (CallAdd m)) with (after (Add spare w m)).
    destruct (upsert_represented _ m Hl Hc) as (l' & Hup & Hl').
    rewrite Add_contents, Hup by exact Hwf. split; [exact Hl'|].
    apply Add_returns; [exact Hwf | rewrite Hup; eauto].
  - change (step spare w CallGet) with (snd (Get w)).
    rewrite Get_contents by exact Hwf. auto.
Qed.

Lemma serve_getmetrics w :
  wf w ->
  fst (serve spare ParseFloat ParseInt format_v w GetMetrics) = render format_v <$> contents w.
Proof.
  intros Hwf. unfold serve, metrics_handler. destruct (Get w) as [s w'] eqn:HG. simpl.
  destruct (Get_spec w s w' Hwf HG) as (_ & _ & _ & Hv & _). rewrite Hv. reflexivity.
Qed.

Lemma serve_all_plain rs : forall w,
  wf w -> Forall represented (contents w) ->
  Forall2 plain_answer rs (fst (serve_all spare ParseFloat ParseInt format_v w rs)) /\
  Forall represented (contents (snd (serve_all spare ParseFloat ParseInt format_v w rs))).
Proof.
  induction rs as [|r rs IH]; intros w Hwf Hl; [split; [constructor | exact Hl]|].
  rewrite serve_all_cons. simpl fst. simpl snd.
  assert (Hstep : plain_answer r (fst (serve spare ParseFloat ParseInt format_v w r)) /\
                  wf (snd (serve spare ParseFloat ParseInt format_v w r)) /\
                  Forall represented
                    (contents (snd (serve spare ParseFloat ParseInt format_v w r)))).
  { rewrite serve_world. destruct r as [t n v|].
    - unfold serve. pose proof (update_handler_cases w t n v) as Hc.
      destruct (accepted ParseFloat ParseInt (PostUpdate t n v)) as [[m|]|] eqn:E;
        [| contradiction |].
      + destruct (represented_step w (CallAdd m) Hwf Hl
                    (accepted_represented _ _ E)) as [Hl' HR].
        rewrite Hc, HR. simpl. repeat split; [left; reflexivity | | exact Hl'].
        apply Add_wf. exact Hwf.
      + destruct Hc as [msg ->]. simpl. repeat split; eauto.
    - change (accepted ParseFloat ParseInt GetMetrics) with (Some CallGet).
      cbv beta iota. rewrite serve_getmetrics by exact Hwf.
      destruct (represented_step w CallGet Hwf Hl I) as [Hl' _].
      repeat split; [|apply step_wf; exact Hwf | exact Hl'].
      simpl. apply Forall_fmap, Forall_true. intros e. simpl. eauto. }
  destruct Hstep as (Ha & Hwf' & Hl').
  destruct (IH _ Hwf' Hl') as [IH1 IH2]. split; [constructor; assumption | exact IH2].
Qed.

Lemma accepted_well_typed rs :
  (forall s z, ParseInt s = Some z -> in_int64 z) ->
  Forall well_typed (added (omap (accepted ParseFloat ParseInt) rs)).
Proof.
  intros Hrange. induction rs as [|r rs IH]; [apply Forall_nil_2|]. simpl omap.
  destruct (accepted ParseFloat ParseInt r) as [[m|]|] eqn:E; [|exact IH|exact IH].
  change (added (CallAdd m :: omap (accepted ParseFloat ParseInt) rs))
    with (m :: added (omap (accepted ParseFloat ParseInt) rs)).
  apply Forall_cons. split; [|exact IH].
  destruct r as [t n v|]; simpl in E; [|discriminate].
  destruct (String.eqb t "gauge").
  - destruct (ParseFloat v) as [f|]; [|discriminate]. injection E as <-.
    apply well_typed_gauge.
  - destruct (String.eqb t "counter"); [|discriminate].
    destruct (ParseInt v) as [z|] eqn:Ez; [|discriminate]. injection E as <-.
    apply well_typed_counter. eapply Hrange. exact Ez.
Qed.

End ServerProofs.

Lemma sample_ParseInt_range s z : sample_ParseInt s = Some z -> in_int64 z.
Proof.
  unfold sample_ParseInt, in_int64, min_int64, max_int64.
  repeat (case_match; try discriminate); intros [= <-]; lia.
Qed.

(** X9.  The handlers come to the store through [Add] and [Get] only: after
    any sequence of requests the world is the one the calls of the accepted
    requests leave, one [Add] for each update with a known type and a value
    that parses, one [Get] for each request for the metrics, in the order of
    the requests.  A rejected update leaves no trace. *)
Theorem requests_come_to_calls
    (spare : nat -> nat) (ParseFloat : string -> option float)
    (ParseInt : string -> option Z) (format_v : iface -> string) (rs : list request) :
  snd (serve_all spare ParseFloat ParseInt format_v NewMemStorage rs) =
  run spare NewMemStorage (omap (accepted ParseFloat ParseInt) rs) /\
  length (fst (serve_all spare ParseFloat ParseInt format_v NewMemStorage rs)) = length rs.
Proof.
  split; [apply serve_all_world|].
  generalize NewMemStorage. induction rs as [|r rs IH]; intros w; [reflexivity|].
  rewrite serve_all_cons. simpl. f_equal. apply IH.
Qed.

(** X10.  The handlers keep the contract of the store.  Whatever the
    requests, every stored counter holds an [int64] and every stored gauge a
    [float64], no [Add] panics, and so no answer is the 500 of the recovery
    middleware: an update is answered with status 200 or with one 400, a
    request for the metrics with lines of status 200 only. *)
Theorem server_never_panics
    (spare : nat -> nat) (ParseFloat : string -> option float)
    (ParseInt : string -> option Z) (format_v : iface -> string) (rs : list request) :
  Forall2 plain_answer rs (fst (serve_all spare ParseFloat ParseInt format_v NewMemStorage rs)) /\
  Forall represented
    (contents (snd (serve_all spare ParseFloat ParseInt format_v NewMemStorage rs))).
Proof.
  apply serve_all_plain; [apply NewMemStorage_wf | apply Forall_nil_2].
Qed.

(** X11.  After any sequence of requests, a request for the metrics writes
    one line for each stored entry, in the order of the entries, which is the
    order in which their keys were first accepted, and leaves the entries as
    they are. *)
Theorem metrics_handler_lists_the_store
    (spare : nat -> nat) (ParseFloat : string -> option float)
    (ParseInt : string -> option Z) (format_v : iface -> string) (rs : list request) :
  let w := snd (serve_all spare ParseFloat ParseInt format_v NewMemStorage rs) in
  fst (serve spare ParseFloat ParseInt format_v w GetMetrics) = render format_v <$> contents w /\
  key <$> contents w =
    first_occurrences [] (key <$> added (omap (accepted ParseFloat ParseInt) rs)) /\
  contents (snd (serve spare ParseFloat ParseInt format_v w GetMetrics)) = contents w.
Proof.
  intros w. unfold w. rewrite serve_all_world.
  assert (Hwf : wf (run spare NewMemStorage (omap (accepted ParseFloat ParseInt) rs)))
    by apply reachable_wf.
  repeat split.
  - apply serve_getmetrics. exact Hwf.
  - rewrite run_keys by apply NewMemStorage_wf. reflexivity.
  - rewrite serve_world. apply Get_contents. exact Hwf.
Qed.

(** X12.  Round trip of a gauge: after any sequence of requests, an update
    of type gauge whose value parses is answered with status 200, and the
    next request for the metrics writes the line of that name and value, the
    only line of a gauge of that name. *)
Theorem gauge_update_then_metrics
    (spare : nat -> nat) (ParseFloat : string -> option float)
    (ParseInt : string -> option Z) (format_v : iface -> string)
    (rs : list request) (n v : string) (f : float) :
  ParseFloat v = Some f ->
  let w := snd (serve_all spare ParseFloat ParseInt format_v NewMemStorage rs) in
  let w' := snd (serve spare ParseFloat ParseInt format_v w (PostUpdate "gauge" n v)) in
  fst (serve spare ParseFloat ParseInt format_v w (PostUpdate "gauge" n v)) = [Status StatusOK] /\
  with_key (n, GaugeType) (contents w') = [mkMetric n GaugeType (Float64 f)] /\
  render format_v (mkMetric n GaugeType (Float64 f))
    ∈ fst (serve spare ParseFloat ParseInt format_v w' GetMetrics).
Proof.
  intros Hf w w'.
  assert (Hacc : accepted ParseFloat ParseInt (PostUpdate "gauge" n v) =
                 Some (CallAdd (mkMetric n GaugeType (Float64 f))))
    by (simpl; rewrite Hf; reflexivity).
  assert (Hw : w = run spare NewMemStorage (omap (accepted ParseFloat ParseInt) rs))
    by apply serve_all_world.
  assert (Hwf : wf w) by (rewrite Hw; apply reachable_wf).
  assert (Hu : unique_keys (contents w)) by (rewrite Hw; apply reachable_unique).
  assert (Hrep : Forall represented (contents w))
    by (apply serve_all_plain; [apply NewMemStorage_wf | apply Forall_nil_2]).
  assert (Hw' : w' = after (Add spare w (mkMetric n GaugeType (Float64 f)))).
  { unfold w'. rewrite serve_world, Hacc. reflexivity. }
  assert (Hwk : with_key (n, GaugeType) (contents w') = [mkMetric n GaugeType (Float64 f)]).
  { rewrite Hw'. apply (Add_gauge_with_key spare w (mkMetric n GaugeType (Float64 f)));
      auto. }
  repeat split.
  - unfold serve. pose proof (update_handler_cases spare ParseFloat ParseInt w "gauge" n v) as Hc.
    rewrite Hacc in Hc. rewrite Hc.
    destruct (represented_step spare w (CallAdd (mkMetric n GaugeType (Float64 f))) Hwf Hrep
                (accepted_represented ParseFloat ParseInt _ _ Hacc)) as [_ ->].
    reflexivity.
  - exact Hwk.
  - rewrite serve_getmetrics by (rewrite Hw'; apply Add_wf; exact Hwf).
    apply list_elem_of_fmap_2.
    assert (Hin : mkMetric n GaugeType (Float64 f) ∈ with_key (n, GaugeType) (contents w'))
      by (rewrite Hwk; apply list_elem_of_here).
    apply with_key_elem in Hin. apply Hin.
Qed.

Lemma gauge_update_then_metrics_witness :
  let w := snd (serve_all doubling sample_ParseFloat sample_ParseInt sample_format NewMemStorage
                  [PostUpdate "gauge" "t" "1.5"; PostUpdate "bogus" "t" "1"]) in
  let w' := snd (serve doubling sample_ParseFloat sample_ParseInt sample_format w
                   (PostUpdate "gauge" "t" "2.5")) in
  fst (serve doubling sample_ParseFloat sample_ParseInt sample_format w
         (PostUpdate "gauge" "t" "2.5")) = [Status StatusOK] /\
  with_key ("t", GaugeType) (contents w') = [mkMetric "t" GaugeType (Float64 2.5)] /\
  render sample_format (mkMetric "t" GaugeType (Float64 2.5))
    ∈ fst (serve doubling sample_ParseFloat sample_ParseInt sample_format w' GetMetrics).
Proof.
  exact (gauge_update_then_metrics doubling sample_ParseFloat sample_ParseInt sample_format
           [PostUpdate "gauge" "t" "1.5"; PostUpdate "bogus" "t" "1"] "t" "2.5" 2.5%float
           eq_refl).
Defined.

(** X13.  Counters over HTTP: when [ParseInt] returns values of the [int64]
    range, then after any sequence of requests with an accepted counter
    update of the name [n], the store holds one counter of that name, its
    value is the sum of the values of all accepted counter updates of that
    name wrapped around to 64 bits, and a request for the metrics writes its
    line. *)
Theorem counter_updates_add_up
    (spare : nat -> nat) (ParseFloat : string -> option float)
    (ParseInt : string -> option Z) (format_v : iface -> string)
    (rs : list request) (n : string) :
  (forall s z, ParseInt s = Some z -> in_int64 z) ->
  (n, CounterType) ∈ key <$> added (omap (accepted ParseFloat ParseInt) rs) ->
  let w := snd (serve_all spare ParseFloat ParseInt format_v NewMemStorage rs) in
  let sum := total (n, CounterType) (added (omap (accepted ParseFloat ParseInt) rs)) in
  with_key (n, CounterType) (contents w) = [mkMetric n CounterType (Int64 (wrap64 sum))] /\
  render format_v (mkMetric n CounterType (Int64 (wrap64 sum)))
    ∈ fst (serve spare ParseFloat ParseInt format_v w GetMetrics).
Proof.
  intros Hrange Hin w sum.
  assert (Hw : w = run spare NewMemStorage (omap (accepted ParseFloat ParseInt) rs))
    by apply serve_all_world.
  assert (Hwf : wf w) by (rewrite Hw; apply reachable_wf).
  assert (Hu : unique_keys (contents w)) by (rewrite Hw; apply reachable_unique).
  pose proof (accepted_well_typed ParseFloat ParseInt rs Hrange) as Hty.
  apply (reachable_keys spare) in Hin. rewrite <- Hw in Hin.
  apply list_elem_of_fmap in Hin. destruct Hin as (e & Hk & He).
  assert (Hc : Type_ e = CounterType) by (unfold key in Hk; congruence).
  assert (Hv : Value e = Int64 (wrap64 sum)).
  { rewrite Hw in He. rewrite (run_counter_total spare _ Hty e He Hc), <- Hk. reflexivity. }
  assert (Hentry : e = mkMetric n CounterType (Int64 (wrap64 sum))).
  { destruct e as [en et ev]. unfold key in Hk. simpl in *. congruence. }
  rewrite <- Hentry. split.
  - rewrite Hk. apply with_key_unique; assumption.
  - rewrite serve_getmetrics by exact Hwf. apply list_elem_of_fmap_2. exact He.
Qed.

Lemma counter_updates_add_up_witness :
  with_key ("c", CounterType)
    (contents (snd (serve_all doubling sample_ParseFloat sample_ParseInt sample_format
                      NewMemStorage
                      [PostUpdate "counter" "c" "1";
                       PostUpdate "counter" "c" "9223372036854775807";
                       GetMetrics;
                       PostUpdate "counter" "c" "many"])))
  = [mkMetric "c" CounterType (Int64 min_int64)].
Proof.
  pose proof (proj1 (counter_updates_add_up doubling sample_ParseFloat sample_ParseInt
                       sample_format
                       [PostUpdate "counter" "c" "1";
                        PostUpdate "counter" "c" "9223372036854775807";
                        GetMetrics;
                        PostUpdate "counter" "c" "many"] "c"
                       sample_ParseInt_range
                       ltac:(vm_compute; apply list_elem_of_here))) as H.
  vm_compute in H. vm_compute. exact H.
Defined.

